(** * MatrixFunctional: observables, measurement circuits, post-processing

    Shallow embedding of
    [src/linear_solvers/observables/matrix_functional.py].

    Python floats and complex numbers are idealised as the real numbers [R]
    and pairs of reals [C]; Python integers are [Z]; a Python exception is
    the [Raise] branch of [result]. *)

From Stdlib Require Import Reals Lra Lia ZArith List Bool Arith.
Import ListNotations.

Set Implicit Arguments.

(** ** Exceptions *)

Inductive exn : Set :=
| ValueError
| IndexError
| ZeroDivisionError
| QiskitError
| CircuitError.

Inductive result (A : Type) : Type :=
| Ok (a : A)
| Raise (e : exn).

Arguments Ok {A} a.
Arguments Raise {A} e.

Definition bind {A B : Type} (m : result A) (k : A -> result B) : result B :=
  match m with
  | Ok a => k a
  | Raise e => Raise e
  end.

Declare Scope py_scope.
Delimit Scope py_scope with py.
Notation "x <- m ;; k" := (bind m (fun x => k))
  (at level 61, m at next level, right associativity) : py_scope.
Open Scope py_scope.

(** [for x in xs: acc = body(acc, x)], stopping at the first exception. *)
Fixpoint for_each {A X : Type} (xs : list X) (body : A -> X -> result A)
  (acc : A) : result A :=
  match xs with
  | [] => Ok acc
  | x :: xs' => acc' <- body acc x ;; for_each xs' body acc'
  end.

(** ** Complex numbers *)

Module Cplx.

Record C : Type := mkC { Re : R; Im : R }.

Definition RtoC (x : R) : C := mkC x 0.
Definition C0 : C := RtoC 0.
Definition C1 : C := RtoC 1.
Definition Ci : C := mkC 0 1.

Definition Cplus (a b : C) : C := mkC (Re a + Re b) (Im a + Im b).
Definition Copp (a : C) : C := mkC (- Re a) (- Im a).
Definition Cminus (a b : C) : C := mkC (Re a - Re b) (Im a - Im b).
Definition Cmult (a b : C) : C :=
  mkC (Re a * Re b - Im a * Im b) (Re a * Im b + Im a * Re b).
Definition Cconj (a : C) : C := mkC (Re a) (- Im a).
(** A real (float) times a complex, and a complex divided by a real. *)
Definition Cscal (r : R) (a : C) : C := mkC (r * Re a) (r * Im a).
Definition Cdiv_real (a : C) (r : R) : C := mkC (Re a / r) (Im a / r).

End Cplx.
Import Cplx.

Declare Scope C_scope.
Delimit Scope C_scope with C.
Bind Scope C_scope with C.
Infix "+" := Cplus : C_scope.
Infix "-" := Cminus : C_scope.
Infix "*" := Cmult : C_scope.

(** ** Python integers, ranges and indexing *)

Open Scope Z_scope.

(** [range(n)]: empty when [n <= 0]. *)
Definition range (n : Z) : list Z := map Z.of_nat (seq 0 (Z.to_nat n)).

(** [range(start, stop, step)] for a positive [step]. *)
Definition range3 (start stop step : Z) : list Z :=
  map (fun k => start + Z.of_nat k * step)
      (seq 0 (Z.to_nat ((stop - start + step - 1) / step))).

Definition len {A : Type} (xs : list A) : Z := Z.of_nat (length xs).

(** [xs[i]] on a Python list: negative indices count from the end, anything
    outside [-len, len) raises [IndexError]. *)
Definition getitem {A : Type} (xs : list A) (i : Z) : result A :=
  let i' := if i <? 0 then i + len xs else i in
  if (0 <=? i') && (i' <? len xs) then
    match nth_error xs (Z.to_nat i') with
    | Some x => Ok x
    | None => Raise IndexError
    end
  else Raise IndexError.

Close Scope Z_scope.

(** ** Dense arrays (numpy) *)

Definition vector := list C.
Definition matrix := list (list C).

Definition Csum (xs : list C) : C := fold_right Cplus C0 xs.

(** Elementwise combination of two equally long sequences. *)
Fixpoint map2 {A B D : Type} (f : A -> B -> D) (xs : list A) (ys : list B)
  : list D :=
  match xs, ys with
  | x :: xs', y :: ys' => f x y :: map2 f xs' ys'
  | _, _ => []
  end.

(** [np.dot(u, v)] on two 1-D arrays (no conjugation). *)
Definition dot (u v : vector) : C := Csum (map2 Cmult u v).

(** [np.dot(M, v)] on a 2-D and a 1-D array. *)
Definition matvec (M : matrix) (v : vector) : vector :=
  map (fun row => dot row v) M.

(** [np.kron(A, B)]: block [(r, c)] of the result is [A[r][c] * B]. *)
Definition kron (A B : matrix) : matrix :=
  flat_map (fun ra =>
              map (fun rb => flat_map (fun a => map (Cmult a) rb) ra) B) A.

(** A [rows] x [cols] array. *)
Definition has_shape (rows cols : nat) (M : matrix) : Prop :=
  length M = rows /\ Forall (fun row => length row = cols) M.

Definition has_shapeb (rows cols : nat) (M : matrix) : bool :=
  Nat.eqb (length M) rows && forallb (fun row => Nat.eqb (length row) cols) M.

Definition same_shapeb (A B : matrix) : bool :=
  Nat.eqb (length A) (length B)
  && forallb (fun rr => Nat.eqb (length (fst rr)) (length (snd rr)))
       (combine A B).

(** [scipy.sparse.diags(diagonals, offsets, shape=(n, n)).toarray()] with
    scalar diagonals: entry [(r, c)] collects every diagonal whose offset is
    [c - r].  scipy rejects the offsets [-1] and [1] on an empty shape. *)
Definition diags_entry (diagonals : list R) (offsets : list Z) (r c : nat)
  : C :=
  Csum (map2 (fun d k =>
                if Z.eqb (Z.of_nat c - Z.of_nat r) k then RtoC d else C0)
             diagonals offsets).

Definition diags_toarray (diagonals : list R) (offsets : list Z) (n : nat)
  : result matrix :=
  if Nat.eqb n 0 then Raise ValueError
  else Ok (map (fun r => map (fun c => diags_entry diagonals offsets r c)
                             (seq 0 n))
               (seq 0 n)).

(** ** Operators (qiskit.quantum_info.Operator) *)

Definition Operator := matrix.

Inductive label : Set := I_label | Z_label.

Definition from_label (l : label) : Operator :=
  match l with
  | I_label => [[C1; C0]; [C0; C1]]
  | Z_label => [[C1; C0]; [C0; RtoC (-1)]]
  end.

(** [a + b] and [a - b]: the shapes must agree. *)
Definition op_add (a b : Operator) : result Operator :=
  if same_shapeb a b then Ok (map2 (map2 Cplus) a b) else Raise QiskitError.

Definition op_sub (a b : Operator) : result Operator :=
  if same_shapeb a b then Ok (map2 (map2 Cminus) a b) else Raise QiskitError.

(** [a / 2]: Qiskit multiplies the data by [1 / 2]. *)
Definition op_half (a : Operator) : Operator := map (map (Cscal (1 / 2))) a.

(** [a.tensor(b)] is the tensor product of [a] and [b], with data
    [np.kron(a.data, b.data)]. *)
Definition tensor (a b : Operator) : Operator := kron a b.

(** The operator acts on [n] qubits: its data is a [2^n] x [2^n] array. *)
Definition acts_on (n : nat) (a : Operator) : Prop :=
  has_shape (2 ^ n) (2 ^ n) a.

(** ** Circuits (qiskit.QuantumCircuit) *)

Inductive Gate : Set :=
| CX (control target : Z)
| H (qubit : Z).

Record QuantumCircuit : Set := mkQC {
  qc_num_qubits : Z;
  qc_data : list Gate
}.

Definition valid_qubit (qc : QuantumCircuit) (q : Z) : bool :=
  (0 <=? q)%Z && (q <? qc_num_qubits qc)%Z.

(** [QuantumCircuit(n)]: a register cannot have a negative size. *)
Definition new_circuit (n : Z) : result QuantumCircuit :=
  if (n <? 0)%Z then Raise CircuitError else Ok (mkQC n []).

(** [qc.cx(c, t)] appends the gate; the qubits must exist and differ. *)
Definition cx (qc : QuantumCircuit) (c t : Z) : result QuantumCircuit :=
  if valid_qubit qc c && valid_qubit qc t && negb (Z.eqb c t)
  then Ok (mkQC (qc_num_qubits qc) (qc_data qc ++ [CX c t]))
  else Raise CircuitError.

(** [qc.h(q)]. *)
Definition h (qc : QuantumCircuit) (q : Z) : result QuantumCircuit :=
  if valid_qubit qc q
  then Ok (mkQC (qc_num_qubits qc) (qc_data qc ++ [H q]))
  else Raise CircuitError.

(** ** Exact (noiseless) execution

    Qubit [q] is bit [q] of the index of an amplitude (Qiskit's ordering). *)

Definition amp (psi : vector) (k : nat) : C := nth k psi C0.

Definition flip_bit (k q : nat) : nat := Nat.lxor k (2 ^ q).

Definition apply_gate (g : Gate) (psi : vector) : vector :=
  map (fun k =>
         match g with
         | CX c t =>
             if Nat.testbit k (Z.to_nat c)
             then amp psi (flip_bit k (Z.to_nat t))
             else amp psi k
         | H q =>
             Cscal (/ sqrt 2)
               (if Nat.testbit k (Z.to_nat q)
                then amp psi (flip_bit k (Z.to_nat q)) - amp psi k
                else amp psi k + amp psi (flip_bit k (Z.to_nat q)))%C
         end)
      (seq 0 (length psi)).

(** The state after running [qc] on the prepared state [psi]. *)
Definition run (qc : QuantumCircuit) (psi : vector) : vector :=
  fold_left (fun st g => apply_gate g st) (qc_data qc) psi.

(** [<psi| op |psi>]; the operator and the state must have the same
    dimension. *)
Definition expectation_value (op : Operator) (psi : vector) : result C :=
  if has_shapeb (length psi) (length psi) op
  then Ok (dot (map Cconj psi) (matvec op psi))
  else Raise QiskitError.

(** ** The class *)

Record MatrixFunctional : Type := mkMF {
  main_diag : R;
  off_diag : R
}.

(** What a caller can pass as [solution] to [post_processing]: the check is
    on the dynamic type. *)
Inductive PyValue : Type :=
| PyFloat (x : R)
| PyList (xs : list C)
| PyTuple (xs : list C)
| NdArray (xs : list C).

Definition isinstance_list (v : PyValue) : bool :=
  match v with
  | PyList _ => true
  | _ => false
  end.

(** [x / d].  A zero divisor gives no real number: Python's own [float]
    and [complex] raise [ZeroDivisionError], which is what the model has;
    numpy scalars give [inf] or [nan], which the real numbers do not
    represent.  No statement below says which of the two happens: those
    that give a value assume a non-zero scaling, the others only exclude
    [ValueError] and [IndexError]. *)
Definition truediv (x : C) (d : R) : result C :=
  if Req_EM_T d 0 then Raise ZeroDivisionError else Ok (Cdiv_real x d).

(** [for _ in range(k): op = op.tensor(factor)] *)
Definition tensor_repeat (k : Z) (factor op : Operator) : Operator :=
  fold_left (fun op _ => tensor op factor) (range k) op.

Section Methods.

Variable self : MatrixFunctional.

(** [MatrixFunctional.observable] *)
Definition observable (num_qubits : Z) : result (list Operator) :=
  s <- op_add (from_label I_label) (from_label Z_label) ;;
  let zero_op := op_half s in
  d <- op_sub (from_label I_label) (from_label Z_label) ;;
  let one_op := op_half d in
  let observables := [] in
  let norm_op := from_label I_label in
  let norm_op := tensor_repeat (num_qubits - 1) (from_label I_label) norm_op in
  let observables := observables ++ [norm_op] in
  for_each (range num_qubits)
    (fun observables i =>
       let j := (num_qubits - i - 1)%Z in
       let prefix_op := from_label I_label in
       let prefix_op :=
         if (0 <? j)%Z
         then tensor_repeat (j - 1) (from_label I_label) prefix_op
         else prefix_op in
       if (0 <? i)%Z then
         let suffix_op := one_op in
         let suffix_op := tensor_repeat (i - 1) one_op suffix_op in
         let zero_case := tensor (tensor prefix_op zero_op) suffix_op in
         let one_case := tensor (tensor prefix_op one_op) suffix_op in
         Ok (observables ++ [zero_case; one_case])
       else
         Ok (observables
               ++ [tensor prefix_op zero_op; tensor prefix_op one_op]))
    observables.

(** [MatrixFunctional.observable_circuit] *)
Definition observable_circuit (num_qubits : Z)
  : result (list QuantumCircuit) :=
  let qcs := [] in
  qc0 <- new_circuit num_qubits ;;
  let qcs := qcs ++ [qc0] in
  for_each (range num_qubits)
    (fun qcs i =>
       qc <- new_circuit num_qubits ;;
       qc <- for_each (range i) (fun qc j => cx qc i j) qc ;;
       qc <- h qc i ;;
       Ok (qcs ++ [qc; qc]))
    qcs.

(** The loop of [post_processing] that accumulates [off_val]. *)
Definition off_val_loop (solution : list C) (scaling : R) : result C :=
  for_each (range3 1 (len solution) 2)
    (fun off_val i =>
       a <- getitem solution i ;;
       b <- getitem solution (i + 1) ;;
       q <- truediv (a - b)%C (scaling ^ 2) ;;
       Ok (off_val + q)%C)
    C0.

(** [MatrixFunctional.post_processing] *)
Definition post_processing (solution : PyValue) (num_qubits : Z)
  (scaling : R) : result R :=
  match solution with
  | PyList sol =>
      off_val <- off_val_loop sol scaling ;;
      s0 <- getitem sol 0 ;;
      main_val <- truediv s0 (scaling ^ 2) ;;
      Ok (Re (Cscal (main_diag self) main_val
              + Cscal (off_diag self) off_val)%C)
  | _ => Raise ValueError
  end.

(** The argument of [evaluate_classically]: an array or a circuit. *)
Inductive Solution : Type :=
| SolArray (x : vector)
| SolCircuit (qc : QuantumCircuit).

(** [Statevector(qc).data]: the circuit run on the all-zero basis state. *)
Definition statevector (qc : QuantumCircuit) : vector :=
  run qc (C1 :: repeat C0 (2 ^ Z.to_nat (qc_num_qubits qc) - 1)).

(** [MatrixFunctional.evaluate_classically] *)
Definition evaluate_classically (solution : Solution) : result C :=
  let solution :=
    match solution with
    | SolCircuit qc => statevector qc
    | SolArray x => x
    end in
  matrix <- diags_toarray [off_diag self; main_diag self; off_diag self]
              [(-1)%Z; 0%Z; 1%Z] (length solution) ;;
  Ok (dot solution (matvec matrix solution)).

End Methods.

(** ** The estimation procedure of the specification

    Every observable circuit is run on the prepared state, the exact
    expectation value of the paired observable is taken on the outcome
    (it exists only when the dimensions agree, see [expectation_value]),
    and the values go to [post_processing] in the same order.  The class
    docstring does the same with the operator-flow classes of older Qiskit
    releases, which are not modelled here. *)

Definition expectation_at (observable_ops : list Operator)
  (obs_circuits : list QuantumCircuit) (init_state : vector) (i : Z)
  : result C :=
  op <- getitem observable_ops i ;;
  qc <- getitem obs_circuits i ;;
  expectation_value op (run qc init_state).

Definition state_values (observable_ops : list Operator)
  (obs_circuits : list QuantumCircuit) (init_state : vector)
  : result (list C) :=
  norm <- expectation_at observable_ops obs_circuits init_state 0 ;;
  for_each (range3 1 (len observable_ops) 2)
    (fun state_vecs i =>
       a <- expectation_at observable_ops obs_circuits init_state i ;;
       b <- expectation_at observable_ops obs_circuits init_state (i + 1) ;;
       Ok (state_vecs ++ [a; b]))
    [norm].

(** The procedure for a given list of observables. *)
Definition estimate_with (self : MatrixFunctional)
  (observable_ops : list Operator) (init_state : vector) (num_qubits : Z)
  : result R :=
  obs_circuits <- observable_circuit num_qubits ;;
  state_vecs <- state_values observable_ops obs_circuits init_state ;;
  post_processing self (PyList state_vecs) num_qubits 1.

(** The procedure with the observables of the class. *)
Definition estimate (self : MatrixFunctional) (init_state : vector)
  (num_qubits : Z) : result R :=
  observable_ops <- observable num_qubits ;;
  estimate_with self observable_ops init_state num_qubits.

(** ** Reference notions used in the statements *)

(** The single-qubit projectors that [observable] computes as [(I + Z) / 2]
    and [(I - Z) / 2]. *)
Definition zero_op : Operator :=
  op_half (map2 (map2 Cplus) (from_label I_label) (from_label Z_label)).

Definition one_op : Operator :=
  op_half (map2 (map2 Cminus) (from_label I_label) (from_label Z_label)).

Definition ProjectorZero : Operator := [[C1; C0]; [C0; C0]].
Definition ProjectorOne : Operator := [[C0; C0]; [C0; C1]].

(** The tensor product of [k] copies of [a]; the empty product is the
    1 x 1 identity, the unit of [tensor]. *)
Definition tensor_power (a : Operator) (k : nat) : Operator :=
  Nat.iter k (fun op => tensor op a) [[C1]].

(** Entries [1 + 2i] and [2 + 2i] as the specification describes them:
    [j] identities, the projector [p], [i] copies of the one-projector. *)
Definition claimed_term (p : Operator) (j i : nat) : Operator :=
  tensor (tensor (tensor_power (from_label I_label) j) p)
         (tensor_power one_op i).

(** Entries [1 + 2i] and [2 + 2i] as the code builds them: the identity
    prefix keeps one factor when [j = 0]. *)
Definition built_term (p : Operator) (j i : nat) : Operator :=
  tensor (tensor (tensor_power (from_label I_label) (Nat.max 1 j)) p)
         (tensor_power one_op i).

(** Finite sums of reals. *)
Definition Rsum (xs : list R) : R := fold_right Rplus 0%R xs.

(** The tridiagonal symmetric Toeplitz matrix of the specification. *)
Definition toeplitz_entry (self : MatrixFunctional) (r c : nat) : C :=
  if Nat.eqb r c then RtoC (main_diag self)
  else if Nat.eqb (S r) c || Nat.eqb r (S c) then RtoC (off_diag self)
  else C0.

(** [x^T A x] written as the double sum over the entries of [A]. *)
Definition bilinear_form (self : MatrixFunctional) (x : vector) : C :=
  Csum (map (fun r =>
          Csum (map (fun c => (amp x r * toeplitz_entry self r c * amp x c)%C)
                    (seq 0 (length x))))
        (seq 0 (length x))).

(** The value of [solution[k]] in a list long enough. *)
Definition item (solution : list C) (k : nat) : C := nth k solution C0.

(** The term that pair [k] of the results contributes to [off_val]. *)
Definition pair_term (solution : list C) (scaling : R) (k : nat) : C :=
  Cdiv_real (item solution (2 * k + 1) - item solution (2 * k + 2))%C
            (scaling ^ 2).

(** [main_diag * main_val + off_diag * off_val] for [n] pairs of results. *)
Definition combination (self : MatrixFunctional) (solution : list C)
  (scaling : R) (n : nat) : C :=
  (Cscal (main_diag self) (Cdiv_real (item solution 0) (scaling ^ 2))
   + Cscal (off_diag self)
       (Csum (map (pair_term solution scaling) (seq 0 n))))%C.

(** The circuit that the specification describes for qubit [i]: a CNOT
    from control [i] to each target [j = 0 .. i-1] in increasing order, then
    a Hadamard on qubit [i]. *)
Definition measure_circuit (n i : Z) : QuantumCircuit :=
  mkQC n (map (fun j => CX i j) (range i) ++ [H i]).

(** ** Notions used to analyse the estimation *)

(** Diagonal matrices, by their diagonal. *)
Fixpoint diag (d : list C) : matrix :=
  match d with
  | [] => []
  | a :: d' => (a :: repeat C0 (length d')) :: map (cons C0) (diag d')
  end.

(** The diagonal of the Kronecker product of two diagonal matrices. *)
Definition dkron (d1 d2 : list C) : list C :=
  flat_map (fun a => map (Cmult a) d2) d1.

Definition dpow (d : list C) (k : nat) : list C :=
  Nat.iter k (fun acc => dkron acc d) [C1].

(** [sum over k of d[k] * w k]. *)
Fixpoint wsum (d : list C) (w : nat -> C) : C :=
  match d with
  | [] => C0
  | a :: d' => (a * w 0%nat + wsum d' (fun k => w (S k)))%C
  end.

(** Finite sums indexed by [0 .. m-1]. *)
Definition Sigma (m : nat) (g : nat -> C) : C := Csum (map g (seq 0 m)).


(** Finite sums of reals indexed by [0 .. m-1]. *)
Definition RSigma (m : nat) (f : nat -> R) : R := Rsum (map f (seq 0 m)).

(** The entries of the tridiagonal Toeplitz matrix, as real numbers. *)
Definition toeplitzR (main off : R) (r c : nat) : R :=
  if Nat.eqb r c then main
  else if Nat.eqb (S r) c || Nat.eqb r (S c) then off
  else 0%R.

(** The state after the CNOTs from control [i] to the targets [0 .. m-1]. *)
Definition cx_state (i m : nat) (x : vector) : vector :=
  fold_left (fun st g => apply_gate g st)
    (map (fun j => CX (Z.of_nat i) j) (range (Z.of_nat m))) x.

(** The weight that a measurement gives to an index. *)
Definition weight (psi : vector) (k : nat) : C :=
  (Cconj (amp psi k) * amp psi k)%C.

(** The list of observables as the specification describes it. *)
Definition claimed_observables (n : Z) : list Operator :=
  tensor_power (from_label I_label) (Z.to_nat n)
  :: flat_map
       (fun i => [claimed_term zero_op (Z.to_nat (n - i - 1)) (Z.to_nat i);
                  claimed_term one_op (Z.to_nat (n - i - 1)) (Z.to_nat i)])
       (range n).

(** The value that the pair of projectors [(p0, p1)] on qubit [i] measures
    after the circuit of qubit [i]. *)
Definition measured (p0 p1 : C) (n i : nat) (x : vector) : C :=
  Sigma (2 ^ (n - 1 - i))
    (fun u =>
       (p0 * weight (run (measure_circuit (Z.of_nat n) (Z.of_nat i)) x)
                    (2 * u * 2 ^ i + (2 ^ i - 1))%nat
        + p1 * weight (run (measure_circuit (Z.of_nat n) (Z.of_nat i)) x)
                      ((2 * u + 1) * 2 ^ i + (2 ^ i - 1))%nat)%C).

(** The values that the estimation collects, with the observables of the
    specification. *)
Definition measured_values (n : nat) (x : vector) : list C :=
  Sigma (2 ^ n) (weight x)
  :: flat_map (fun i => [measured C1 C0 n i x; measured C0 C1 n i x])
       (seq 0 n).

(** ** Notions used in further properties of the code *)

(** The results divided by the square of the scaling. *)
Definition prescaled (solution : list C) (scaling : R) : list C :=
  map (fun z => Cdiv_real z (scaling ^ 2)) solution.

(** A gate that [observable_circuit] may emit on [n] qubits: the target of
    a CNOT lies below its control. *)
Definition gate_ok (n : Z) (g : Gate) : Prop :=
  match g with
  | CX c t => (0 <= t < c)%Z /\ (c < n)%Z
  | H q => (0 <= q < n)%Z
  end.

(** An entry that is zero or one. *)
Definition is_bit (a : C) : Prop := a = C0 \/ a = C1.

(** A diagonal operator whose diagonal holds zeros and ones. *)
Definition basis_projector (op : Operator) : Prop :=
  exists d, op = diag d /\ Forall is_bit d.

(** * Properties *)

(** ** Complex arithmetic *)

Lemma C_eq (a b : C) : Re a = Re b -> Im a = Im b -> a = b.
Proof. destruct a, b; simpl; intros -> ->; reflexivity. Qed.


Ltac c_eq := apply C_eq; simpl; try ring; try lra.

Lemma Cplus_comm (a b : C) : (a + b)%C = (b + a)%C.
Proof. c_eq. Qed.

Lemma Cplus_assoc (a b c : C) : (a + (b + c))%C = (a + b + c)%C.
Proof. c_eq. Qed.

Lemma Cplus_0_l (a : C) : (C0 + a)%C = a.
Proof. c_eq. Qed.

Lemma Cplus_0_r (a : C) : (a + C0)%C = a.
Proof. c_eq. Qed.

Lemma Cmult_1_l (a : C) : (C1 * a)%C = a.
Proof. c_eq. Qed.

Lemma Cmult_1_r (a : C) : (a * C1)%C = a.
Proof. c_eq. Qed.

Lemma Cmult_0_l (a : C) : (C0 * a)%C = C0.
Proof. c_eq. Qed.

Lemma Cmult_0_r (a : C) : (a * C0)%C = C0.
Proof. c_eq. Qed.

Lemma Cmult_comm (a b : C) : (a * b)%C = (b * a)%C.
Proof. c_eq. Qed.

Lemma Cmult_assoc (a b c : C) : (a * (b * c))%C = (a * b * c)%C.
Proof. c_eq. Qed.

Lemma Cmult_plus_distr_r (a b c : C) : ((a + b) * c)%C = (a * c + b * c)%C.
Proof. c_eq. Qed.

Lemma Cmult_plus_distr_l (a b c : C) : (a * (b + c))%C = (a * b + a * c)%C.
Proof. c_eq. Qed.

Lemma Csum_app (xs ys : list C) : Csum (xs ++ ys) = (Csum xs + Csum ys)%C.
Proof.
  induction xs as [|x xs IH]; simpl.
  - now rewrite Cplus_0_l.
  - now rewrite IH, Cplus_assoc.
Qed.

(** ** Loops *)

Lemma for_each_app {A X : Type} (xs ys : list X) (body : A -> X -> result A)
  (acc : A) :
  for_each (xs ++ ys) body acc
  = (acc' <- for_each xs body acc ;; for_each ys body acc').
Proof.
  revert acc; induction xs as [|x xs IH]; intros acc; simpl; [reflexivity|].
  destruct (body acc x); simpl; auto.
Qed.

(** A loop whose body only appends to a list never raises. *)
Lemma for_each_append {A X : Type} (xs : list X)
  (body : list A -> X -> result (list A)) (g : X -> list A) (acc : list A) :
  (forall x acc', In x xs -> body acc' x = Ok (acc' ++ g x)) ->
  for_each xs body acc = Ok (acc ++ flat_map g xs).
Proof.
  revert acc; induction xs as [|x xs IH]; intros acc Hbody; simpl.
  - now rewrite app_nil_r.
  - rewrite Hbody by now left. simpl.
    rewrite IH by (intros; apply Hbody; now right).
    now rewrite app_assoc.
Qed.

(** A loop whose body only adds a term to a sum never raises. *)
Lemma for_each_sum {X : Type} (xs : list X) (body : C -> X -> result C)
  (g : X -> C) (acc : C) :
  (forall x acc', In x xs -> body acc' x = Ok (acc' + g x)%C) ->
  for_each xs body acc = Ok (acc + Csum (map g xs))%C.
Proof.
  revert acc; induction xs as [|x xs IH]; intros acc Hbody; simpl.
  - now rewrite Cplus_0_r.
  - rewrite Hbody by now left. simpl.
    rewrite IH by (intros; apply Hbody; now right).
    now rewrite Cplus_assoc.
Qed.

(** ** Ranges and indexing *)

Lemma in_range (n i : Z) : In i (range n) <-> (0 <= i < n)%Z.
Proof.
  unfold range. rewrite in_map_iff. split.
  - intros [k [<- Hk]]. apply in_seq in Hk. lia.
  - intros Hi. exists (Z.to_nat i). split; [lia|]. apply in_seq. lia.
Qed.

Lemma length_range (n : Z) : length (range n) = Z.to_nat n.
Proof. unfold range. now rewrite length_map, length_seq. Qed.

Lemma range_of_nat (n : nat) : range (Z.of_nat n) = map Z.of_nat (seq 0 n).
Proof. unfold range. now rewrite Nat2Z.id. Qed.

Lemma range_succ (n : nat) :
  range (Z.of_nat (S n)) = range (Z.of_nat n) ++ [Z.of_nat n].
Proof. rewrite !range_of_nat, seq_S, map_app. reflexivity. Qed.

(** [range(1, L, 2)] is [1, 3, ...], with [L / 2] elements. *)
Lemma range3_odd_indices (L : nat) :
  range3 1 (Z.of_nat L) 2
  = map (fun k => (2 * Z.of_nat k + 1)%Z) (seq 0 (L / 2)).
Proof.
  unfold range3.
  replace (Z.to_nat ((Z.of_nat L - 1 + 2 - 1) / 2)) with (L / 2)%nat.
  - apply map_ext. intros k. lia.
  - replace (Z.of_nat L - 1 + 2 - 1)%Z with (Z.of_nat L) by lia.
    change 2%Z with (Z.of_nat 2). rewrite <- Nat2Z.inj_div. lia.
Qed.

Lemma getitem_in_range {A : Type} (xs : list A) (i : Z) (d : A) :
  (0 <= i < len xs)%Z -> getitem xs i = Ok (nth (Z.to_nat i) xs d).
Proof.
  unfold getitem, len. intros Hi.
  destruct (Z.ltb_spec i 0); [lia|].
  destruct (Z.leb_spec 0 i); [|lia].
  destruct (Z.ltb_spec i (Z.of_nat (length xs))); [|lia]. simpl.
  destruct (nth_error xs (Z.to_nat i)) eqn:E.
  - now rewrite (nth_error_nth _ _ d E).
  - apply nth_error_None in E. lia.
Qed.

Lemma getitem_past_end {A : Type} (xs : list A) (i : Z) :
  (len xs <= i)%Z -> getitem xs i = Raise IndexError.
Proof.
  unfold getitem, len. intros Hi.
  destruct (Z.ltb_spec i 0); [lia|].
  destruct (Z.ltb_spec i (Z.of_nat (length xs))); [lia|].
  now rewrite andb_false_r.
Qed.

Lemma getitem_not_ValueError {A : Type} (xs : list A) (i : Z) :
  getitem xs i <> Raise ValueError.
Proof.
  unfold getitem.
  destruct (_ && _); [destruct (nth_error _ _)|]; discriminate.
Qed.

Lemma truediv_nonzero (x : C) (d : R) :
  d <> 0%R -> truediv x d = Ok (Cdiv_real x d).
Proof. unfold truediv. intros Hd. destruct (Req_EM_T d 0); tauto. Qed.

Lemma truediv_not_ValueError (x : C) (d : R) : truediv x d <> Raise ValueError.
Proof. unfold truediv. destruct (Req_EM_T d 0); discriminate. Qed.

(** ** post_processing *)

Lemma for_each_not_ValueError {A X : Type} (xs : list X)
  (body : A -> X -> result A) (acc : A) :
  (forall acc' x, body acc' x <> Raise ValueError) ->
  for_each xs body acc <> Raise ValueError.
Proof.
  intros Hbody. revert acc.
  induction xs as [|x xs IH]; intros acc; simpl; [discriminate|].
  destruct (body acc x) as [acc'|e] eqn:E; simpl; [apply IH|].
  rewrite <- E. apply Hbody.
Qed.

Lemma bind_not_ValueError {A B : Type} (m : result A) (k : A -> result B) :
  m <> Raise ValueError -> (forall a, k a <> Raise ValueError) ->
  bind m k <> Raise ValueError.
Proof.
  destruct m as [a|e]; simpl; intros Hm Hk; [apply Hk|].
  intros E. apply Hm. now inversion E.
Qed.

Lemma off_val_loop_not_ValueError (solution : list C) (scaling : R) :
  off_val_loop solution scaling <> Raise ValueError.
Proof.
  apply for_each_not_ValueError. intros acc i.
  repeat (apply bind_not_ValueError;
          [first [apply getitem_not_ValueError | apply truediv_not_ValueError]
          | intros ?]).
  discriminate.
Qed.

(** One iteration of the loop when both reads are in range. *)
Lemma loop_body_in_range (solution : list C) (scaling : R) (k : nat)
  (off_val : C) :
  (2 * k + 2 < length solution)%nat -> (scaling ^ 2 <> 0)%R ->
  (a <- getitem solution (2 * Z.of_nat k + 1) ;;
   b <- getitem solution (2 * Z.of_nat k + 1 + 1) ;;
   q <- truediv (a - b)%C (scaling ^ 2) ;;
   Ok (off_val + q)%C)
  = Ok (off_val + pair_term solution scaling k)%C.
Proof.
  intros Hk Hs.
  rewrite (getitem_in_range solution C0) by (unfold len; lia). cbn [bind].
  rewrite (getitem_in_range solution C0) by (unfold len; lia). cbn [bind].
  rewrite truediv_nonzero by assumption. cbn [bind].
  unfold pair_term, item.
  replace (Z.to_nat (2 * Z.of_nat k + 1)) with (2 * k + 1)%nat by lia.
  replace (Z.to_nat (2 * Z.of_nat k + 1 + 1)) with (2 * k + 2)%nat by lia.
  reflexivity.
Qed.

(** The first [m] iterations, when all their reads are in range. *)
Lemma off_val_prefix (solution : list C) (scaling : R) (m : nat) :
  (2 * m < length solution)%nat -> (scaling ^ 2 <> 0)%R ->
  for_each (map (fun k => (2 * Z.of_nat k + 1)%Z) (seq 0 m))
    (fun off_val i =>
       a <- getitem solution i ;;
       b <- getitem solution (i + 1) ;;
       q <- truediv (a - b)%C (scaling ^ 2) ;;
       Ok (off_val + q)%C)
    C0
  = Ok (Csum (map (pair_term solution scaling) (seq 0 m))).
Proof.
  intros Hm Hs.
  rewrite for_each_sum
    with (g := fun i => pair_term solution scaling (Z.to_nat ((i - 1) / 2))).
  - rewrite Cplus_0_l, map_map. do 2 f_equal. apply map_ext. intros k.
    f_equal. replace (2 * Z.of_nat k + 1 - 1)%Z with (Z.of_nat k * 2)%Z by lia.
    rewrite Z.div_mul by lia. lia.
  - intros i acc Hi. apply in_map_iff in Hi. destruct Hi as [k [<- Hk]].
    apply in_seq in Hk.
    rewrite loop_body_in_range by (assumption || lia).
    do 3 f_equal.
    replace (2 * Z.of_nat k + 1 - 1)%Z with (Z.of_nat k * 2)%Z by lia.
    rewrite Z.div_mul by lia. lia.
Qed.

Lemma off_val_loop_odd (solution : list C) (scaling : R) (n : nat) :
  length solution = (2 * n + 1)%nat -> (scaling ^ 2 <> 0)%R ->
  off_val_loop solution scaling
  = Ok (Csum (map (pair_term solution scaling) (seq 0 n))).
Proof.
  intros Hlen Hs. unfold off_val_loop, len.
  rewrite range3_odd_indices.
  replace (length solution / 2)%nat with n.
  - apply off_val_prefix; [lia | assumption].
  - rewrite Hlen. replace (2 * n + 1)%nat with (1 + n * 2)%nat by lia.
    rewrite Nat.div_add by lia. reflexivity.
Qed.

(** On a list of [2n + 1] numbers and a non-zero scaling the result is the
    real part of the combination, whatever the numbers are. *)
Lemma post_processing_odd (self : MatrixFunctional) (solution : list C)
  (num_qubits : Z) (scaling : R) (n : nat) :
  length solution = (2 * n + 1)%nat -> scaling <> 0%R ->
  post_processing self (PyList solution) num_qubits scaling
  = Ok (Re (combination self solution scaling n)).
Proof.
  intros Hlen Hs.
  assert (Hs2 : (scaling ^ 2 <> 0)%R) by (apply pow_nonzero; assumption).
  unfold post_processing.
  rewrite (off_val_loop_odd _ _ Hlen Hs2). simpl bind.
  rewrite (getitem_in_range solution C0) by (unfold len; lia). simpl bind.
  rewrite truediv_nonzero by assumption. reflexivity.
Qed.

Lemma nth_map_RtoC (xs : list R) (k : nat) :
  nth k (map RtoC xs) C0 = RtoC (nth k xs 0%R).
Proof. apply (map_nth RtoC xs 0%R k). Qed.

Lemma Re_Csum (xs : list C) : Re (Csum xs) = Rsum (map Re xs).
Proof. induction xs as [|x xs IH]; simpl; [reflexivity | now rewrite IH]. Qed.

(** On an even-length list the last iteration reads one past the end. *)
Lemma off_val_loop_even (solution : list C) (scaling : R) (m : nat) :
  length solution = (2 * m + 2)%nat -> (scaling ^ 2 <> 0)%R ->
  off_val_loop solution scaling = Raise IndexError.
Proof.
  intros Hlen Hs. unfold off_val_loop, len.
  rewrite range3_odd_indices.
  replace (length solution / 2)%nat with (S m).
  - rewrite seq_S, map_app, for_each_app.
    rewrite off_val_prefix by (assumption || lia).
    cbn [bind map for_each Nat.add].
    rewrite (getitem_in_range solution C0) by (unfold len; lia).
    cbn [bind].
    rewrite getitem_past_end by (unfold len; lia).
    reflexivity.
  - rewrite Hlen. replace (2 * m + 2)%nat with (S m * 2)%nat by lia.
    now rewrite Nat.div_mul by lia.
Qed.

Lemma last_range3_even (m : nat) :
  last (range3 1 (Z.of_nat (2 * m + 2)) 2) 0%Z = (2 * Z.of_nat m + 1)%Z.
Proof.
  rewrite range3_odd_indices.
  replace ((2 * m + 2) / 2)%nat with (S m).
  - rewrite seq_S, map_app. apply last_last.
  - replace (2 * m + 2)%nat with (S m * 2)%nat by lia.
    now rewrite Nat.div_mul by lia.
Qed.

Lemma in_range3_odd_indices (L : nat) (i : Z) :
  In i (range3 1 (Z.of_nat L) 2) ->
  exists k, i = (2 * Z.of_nat k + 1)%Z /\ (k < L / 2)%nat.
Proof.
  rewrite range3_odd_indices, in_map_iff.
  intros [k [<- Hk]]. apply in_seq in Hk. exists k. split; [reflexivity | lia].
Qed.

(** C3: on a list of exactly 2n+1 real values, with n >= 1 and a positive
    scaling s, post_processing returns
    main_diag * (solution[0] / s^2)
      + off_diag * sum over k in [0, n) of
          (solution[2k+1] - solution[2k+2]) / s^2,
    a real number (the real part of the combination). *)
Theorem post_processing_formula (self : MatrixFunctional) (n : Z)
  (solution : list R) (s : R) :
  (1 <= n)%Z -> len solution = (2 * n + 1)%Z -> (0 < s)%R ->
  post_processing self (PyList (map RtoC solution)) n s
  = Ok (main_diag self * (nth 0 solution 0 / s ^ 2)
        + off_diag self
          * Rsum (map (fun k => (nth (2 * k + 1) solution 0
                                 - nth (2 * k + 2) solution 0) / s ^ 2)
                      (seq 0 (Z.to_nat n))))%R.
Proof.
  intros Hn Hlen Hs. unfold len in Hlen.
  rewrite (@post_processing_odd self _ n s (Z.to_nat n)).
  - f_equal. unfold combination. cbn [Re Cplus Cscal].
    rewrite Re_Csum, map_map. unfold item at 1.
    rewrite nth_map_RtoC. cbn [Re Cdiv_real RtoC].
    do 3 f_equal. apply map_ext. intros k.
    unfold pair_term, item. now rewrite !nth_map_RtoC.
  - rewrite length_map. lia.
  - lra.
Qed.

Lemma post_processing_formula_witness :
  (1 <= 1)%Z /\ len [4; 2; 1]%R = (2 * 1 + 1)%Z /\ (0 < 2)%R
  /\ post_processing (mkMF 2 1) (PyList (map RtoC [4; 2; 1]%R)) 1 2
     = Ok (2 * (4 / 2 ^ 2) + 1 * Rsum [(2 - 1) / 2 ^ 2])%R.
Proof.
  split; [lia|]. split; [reflexivity|]. split; [lra|].
  apply (@post_processing_formula (mkMF 2 1) 1 [4; 2; 1]%R 2);
    [lia | reflexivity | lra].
Defined.

(** C7 (as the code has it): post_processing never inspects the imaginary
    part of main_diag * main_val + off_diag * off_val.  On any list of 2n+1
    complex numbers and a non-zero scaling it returns the real part of the
    combination and raises nothing, however large the imaginary part is. *)
Theorem post_processing_discards_imaginary (self : MatrixFunctional)
  (solution : list C) (num_qubits : Z) (scaling : R) (n : nat) :
  length solution = (2 * n + 1)%nat -> scaling <> 0%R ->
  post_processing self (PyList solution) num_qubits scaling
  = Ok (Re (combination self solution scaling n))
  /\ forall e, post_processing self (PyList solution) num_qubits scaling
               <> Raise e.
Proof.
  intros Hlen Hs.
  rewrite (@post_processing_odd self solution num_qubits scaling n Hlen Hs).
  split; [reflexivity | discriminate].
Qed.

Lemma post_processing_discards_imaginary_witness :
  length [mkC 1 1; C1; C0] = (2 * 1 + 1)%nat /\ 1%R <> 0%R
  /\ post_processing (mkMF 2 1) (PyList [mkC 1 1; C1; C0]) 1 1
     = Ok (Re (combination (mkMF 2 1) [mkC 1 1; C1; C0] 1 1)).
Proof.
  split; [reflexivity|]. split; [lra|].
  apply (@post_processing_discards_imaginary (mkMF 2 1) [mkC 1 1; C1; C0]
           1 1 1); [reflexivity | lra].
Defined.

(** C7 fails as stated: with main_diag = 2, off_diag = 1 and the results
    [1+1i, 1, 0] the combination is 3 + 2i, whose imaginary part 2 is not
    negligible, and post_processing returns 3 instead of raising. *)
Lemma imaginary_part_silently_dropped :
  Im (combination (mkMF 2 1) [mkC 1 1; C1; C0] 1 1) = 2%R
  /\ post_processing (mkMF 2 1) (PyList [mkC 1 1; C1; C0]) 1 1 = Ok 3%R
  /\ forall e, post_processing (mkMF 2 1) (PyList [mkC 1 1; C1; C0]) 1 1
               <> Raise e.
Proof.
  assert (Hpp : post_processing (mkMF 2 1) (PyList [mkC 1 1; C1; C0]) 1 1
                = Ok 3%R).
  { rewrite (@post_processing_odd (mkMF 2 1) [mkC 1 1; C1; C0] 1 1 1)
      by (reflexivity || lra).
    f_equal. unfold combination, pair_term, item. simpl. field. }
  split; [|split].
  - unfold combination, pair_term, item. simpl. field.
  - exact Hpp.
  - rewrite Hpp. discriminate.
Qed.

(** C8 (as the code has it): post_processing raises ValueError exactly when
    its argument is not a Python list; tuples and arrays are rejected like a
    bare float. *)
Theorem post_processing_ValueError_iff (self : MatrixFunctional)
  (solution : PyValue) (num_qubits : Z) (scaling : R) :
  post_processing self solution num_qubits scaling = Raise ValueError
  <-> isinstance_list solution = false.
Proof.
  destruct solution as [x|xs|xs|xs]; simpl; try (split; reflexivity).
  split; [|discriminate]. intros E. exfalso. revert E.
  apply bind_not_ValueError; [apply off_val_loop_not_ValueError|].
  intros off_val.
  apply bind_not_ValueError; [apply getitem_not_ValueError|]. intros s0.
  apply bind_not_ValueError; [apply truediv_not_ValueError|]. intros main_val.
  discriminate.
Qed.

(** C8 fails as stated: a tuple and an array are sequences, and
    post_processing raises ValueError on them. *)
Lemma tuple_and_array_rejected :
  post_processing (mkMF 2 1) (PyTuple [C1; C0; C0]) 1 1 = Raise ValueError
  /\ post_processing (mkMF 2 1) (NdArray [C1; C0; C0]) 1 1 = Raise ValueError.
Proof. split; reflexivity. Qed.

Lemma truediv_zero (x : C) (d : R) :
  d = 0%R -> truediv x d = Raise ZeroDivisionError.
Proof. unfold truediv. intros ->. destruct (Req_EM_T 0 0); tauto. Qed.

(** With a zero scaling the first iteration already divides by zero. *)
Lemma off_val_loop_zero_scaling (solution : list C) (scaling : R) :
  (scaling ^ 2 = 0)%R -> (3 <= length solution)%nat ->
  off_val_loop solution scaling = Raise ZeroDivisionError.
Proof.
  intros Hs Hlen. unfold off_val_loop, len. rewrite range3_odd_indices.
  assert (Hdiv : exists k, (length solution / 2 = S k)%nat).
  { destruct (length solution / 2)%nat as [|k] eqn:E; [|now exists k].
    apply Nat.div_small_iff in E; lia. }
  destruct Hdiv as [k ->]. cbn [seq map for_each].
  rewrite (getitem_in_range solution C0) by (unfold len; lia). cbn [bind].
  rewrite (getitem_in_range solution C0) by (unfold len; lia). cbn [bind].
  rewrite truediv_zero by exact Hs. reflexivity.
Qed.

Lemma off_val_loop_short (solution : list C) (scaling : R) :
  (length solution <= 1)%nat -> off_val_loop solution scaling = Ok C0.
Proof.
  intros Hlen. unfold off_val_loop, len. rewrite range3_odd_indices.
  replace (length solution / 2)%nat with 0%nat; [reflexivity|].
  symmetry. apply Nat.div_small. lia.
Qed.

(** On a list of odd length the loop never reads out of range, whatever
    the scaling: it either completes or stops at a division by zero. *)
Lemma off_val_loop_odd_outcome (solution : list C) (scaling : R) :
  Nat.Odd (length solution) ->
  (scaling <> 0%R ->
   off_val_loop solution scaling
   = Ok (Csum (map (pair_term solution scaling)
                   (seq 0 (length solution / 2)))))
  /\ off_val_loop solution scaling <> Raise IndexError.
Proof.
  intros [m Hm].
  assert (Hdiv : (length solution / 2 = m)%nat).
  { rewrite Hm. replace (2 * m + 1)%nat with (1 + m * 2)%nat by lia.
    now rewrite Nat.div_add by lia. }
  rewrite Hdiv. split.
  - intros Hs. apply off_val_loop_odd; [exact Hm|].
    apply pow_nonzero. exact Hs.
  - destruct (Req_EM_T (scaling ^ 2) 0) as [Hz|Hnz].
    + destruct m as [|m].
      * rewrite off_val_loop_short by lia. discriminate.
      * rewrite off_val_loop_zero_scaling by (assumption || lia).
        discriminate.
    + rewrite (@off_val_loop_odd solution scaling m Hm Hnz). discriminate.
Qed.

Lemma post_processing_odd_no_IndexError (self : MatrixFunctional)
  (solution : list C) (num_qubits : Z) (scaling : R) :
  Nat.Odd (length solution) ->
  post_processing self (PyList solution) num_qubits scaling
  <> Raise IndexError.
Proof.
  intros [m Hm]. destruct (Req_EM_T (scaling ^ 2) 0) as [Hz|Hnz].
  - unfold post_processing. destruct m as [|m].
    + rewrite off_val_loop_short by lia. cbn [bind].
      rewrite (getitem_in_range solution C0) by (unfold len; lia).
      cbn [bind]. rewrite truediv_zero by exact Hz. discriminate.
    + rewrite off_val_loop_zero_scaling by (assumption || lia).
      discriminate.
  - assert (Hs : scaling <> 0%R).
    { intros ->. apply Hnz. simpl. ring. }
    rewrite (@post_processing_odd self solution num_qubits scaling m Hm Hs).
    discriminate.
Qed.

(** C9: the loop of post_processing over i = 1, 3, 5, ... reads
    solution[i] and solution[i+1].  On a list of odd length every such read
    is in range: the loop is never stopped by an IndexError, whatever the
    scaling, it runs to its end when the scaling is not zero, and
    post_processing raises no IndexError either.  On a list of even length
    >= 2 the read solution[i+1] of the last iteration is one past the end:
    indexing raises IndexError there, and so does post_processing (for a
    non-zero scaling). *)
Theorem loop_index_safety (solution : list C) :
  (Nat.Odd (length solution) ->
   (forall i, In i (range3 1 (len solution) 2) ->
      (0 <= i < len solution)%Z /\ (0 <= i + 1 < len solution)%Z
      /\ (exists a, getitem solution i = Ok a)
      /\ (exists b, getitem solution (i + 1) = Ok b))
   /\ (forall scaling, off_val_loop solution scaling <> Raise IndexError)
   /\ (forall scaling, scaling <> 0%R ->
         exists off_val, off_val_loop solution scaling = Ok off_val)
   /\ (forall self num_qubits scaling,
         post_processing self (PyList solution) num_qubits scaling
         <> Raise IndexError))
  /\
  (Nat.Even (length solution) -> (2 <= length solution)%nat ->
   let i := last (range3 1 (len solution) 2) 0%Z in
   In i (range3 1 (len solution) 2)
   /\ (0 <= i < len solution)%Z /\ (i + 1 = len solution)%Z
   /\ getitem solution (i + 1) = Raise IndexError
   /\ (forall scaling, scaling <> 0%R ->
         off_val_loop solution scaling = Raise IndexError)
   /\ forall self num_qubits scaling, scaling <> 0%R ->
        post_processing self (PyList solution) num_qubits scaling
        = Raise IndexError).
Proof.
  split.
  - intros Hodd. split; [|split; [|split]].
    + destruct Hodd as [m Hm]. intros i Hi. unfold len in *.
      apply in_range3_odd_indices in Hi. destruct Hi as [k [-> Hk]].
      assert (Hdiv : (length solution / 2 = m)%nat).
      { rewrite Hm. replace (2 * m + 1)%nat with (1 + m * 2)%nat by lia.
        now rewrite Nat.div_add by lia. }
      assert (H1 : (0 <= 2 * Z.of_nat k + 1
                    < Z.of_nat (length solution))%Z) by lia.
      assert (H2 : (0 <= 2 * Z.of_nat k + 1 + 1
                    < Z.of_nat (length solution))%Z) by lia.
      repeat split; try lia.
      * eexists. apply (getitem_in_range solution C0). exact H1.
      * eexists. apply (getitem_in_range solution C0). exact H2.
    + intros scaling.
      apply (proj2 (@off_val_loop_odd_outcome solution scaling Hodd)).
    + intros scaling Hs. eexists.
      apply (proj1 (@off_val_loop_odd_outcome solution scaling Hodd) Hs).
    + intros self num_qubits scaling.
      now apply post_processing_odd_no_IndexError.
  - intros [m Hm] H2. unfold len.
    destruct m as [|m]; [lia|].
    assert (Hlen : length solution = (2 * m + 2)%nat) by lia.
    rewrite Hlen, last_range3_even. cbv zeta.
    split; [|split; [|split; [|split; [|split]]]]; try lia.
    + rewrite range3_odd_indices, in_map_iff. exists m. split; [lia|].
      apply in_seq. replace (2 * m + 2)%nat with (S m * 2)%nat by lia.
      rewrite Nat.div_mul by lia. lia.
    + apply getitem_past_end. unfold len. lia.
    + intros scaling Hs.
      apply (@off_val_loop_even solution scaling m Hlen).
      apply pow_nonzero; assumption.
    + intros self num_qubits scaling Hs. unfold post_processing.
      rewrite (@off_val_loop_even solution scaling m Hlen)
        by (apply pow_nonzero; assumption).
      reflexivity.
Qed.

Lemma loop_index_safety_witness :
  (Nat.Odd (length [C1; C0; C0]) /\ In 1%Z (range3 1 (len [C1; C0; C0]) 2)
   /\ (0 <= 1 + 1 < len [C1; C0; C0])%Z
   /\ off_val_loop [C1; C0; C0] 1 <> Raise IndexError
   /\ post_processing (mkMF 2 1) (PyList [C1; C0; C0]) 1 0
      <> Raise IndexError)
  /\ (Nat.Even (length [C1; C0]) /\ (2 <= length [C1; C0])%nat
      /\ getitem [C1; C0] (last (range3 1 (len [C1; C0]) 2) 0%Z + 1)
         = Raise IndexError).
Proof.
  assert (Hodd : Nat.Odd (length [C1; C0; C0])) by (exists 1%nat; reflexivity).
  assert (Hin : In 1%Z (range3 1 (len [C1; C0; C0]) 2)) by (left; reflexivity).
  assert (Heven : Nat.Even (length [C1; C0])) by (exists 1%nat; reflexivity).
  destruct (proj1 (loop_index_safety [C1; C0; C0]) Hodd)
    as [Hreads [Hloop [_ Hpost]]].
  split.
  - split; [exact Hodd|]. split; [exact Hin|].
    split; [apply (Hreads 1%Z Hin)|].
    split; [apply Hloop | apply Hpost].
  - split; [exact Heven|]. split; [simpl; lia|].
    apply (proj2 (loop_index_safety [C1; C0]) Heven). simpl; lia.
Defined.

(** C10: post_processing never reads num_qubits: for any argument and any
    scaling, two calls that differ only in num_qubits give the same
    outcome, value or exception. *)
Theorem post_processing_ignores_num_qubits (self : MatrixFunctional)
  (solution : PyValue) (scaling : R) (n1 n2 : Z) :
  post_processing self solution n1 scaling
  = post_processing self solution n2 scaling.
Proof. destruct solution; reflexivity. Qed.

(** ** evaluate_classically *)

Lemma map2_nth {A B D : Type} (f : A -> B -> D) (xs : list A) (ys : list B)
  (dx : A) (dy : B) :
  length xs = length ys ->
  map2 f xs ys
  = map (fun k => f (nth k xs dx) (nth k ys dy)) (seq 0 (length xs)).
Proof.
  revert ys. induction xs as [|x xs IH]; intros [|y ys] Hlen;
    simpl in *; try reflexivity; try discriminate.
  f_equal. rewrite <- seq_shift, map_map. apply IH. lia.
Qed.

Lemma nth_map_seq {A : Type} (g : nat -> A) (n k : nat) (d : A) :
  (k < n)%nat -> nth k (map g (seq 0 n)) d = g k.
Proof.
  intros Hk.
  rewrite (nth_indep _ d (g 0%nat)) by now rewrite length_map, length_seq.
  rewrite (map_nth g (seq 0 n) 0%nat k), seq_nth by assumption. reflexivity.
Qed.

Lemma Csum_scal (a : C) (xs : list C) :
  (a * Csum xs)%C = Csum (map (Cmult a) xs).
Proof.
  induction xs as [|x xs IH]; simpl.
  - apply Cmult_0_r.
  - now rewrite Cmult_plus_distr_l, IH.
Qed.

(** The three diagonals that [diags] receives make the Toeplitz matrix. *)
Lemma diags_entry_toeplitz (self : MatrixFunctional) (r c : nat) :
  diags_entry [off_diag self; main_diag self; off_diag self]
              [(-1)%Z; 0%Z; 1%Z] r c
  = toeplitz_entry self r c.
Proof.
  unfold diags_entry, toeplitz_entry. cbn [map2 Csum fold_right].
  destruct (Z.eqb_spec (Z.of_nat c - Z.of_nat r) (-1)),
           (Z.eqb_spec (Z.of_nat c - Z.of_nat r) 0),
           (Z.eqb_spec (Z.of_nat c - Z.of_nat r) 1),
           (Nat.eqb_spec r c), (Nat.eqb_spec (S r) c), (Nat.eqb_spec r (S c));
    try lia; cbn [orb]; c_eq.
Qed.

(** [np.dot] of a row given by its entries with a vector of that length. *)
Lemma dot_row (g : nat -> C) (x : vector) :
  dot (map g (seq 0 (length x))) x
  = Csum (map (fun c => (g c * amp x c)%C) (seq 0 (length x))).
Proof.
  unfold dot.
  rewrite (map2_nth Cmult _ x C0 C0) by now rewrite length_map, length_seq.
  rewrite length_map, length_seq. f_equal. apply map_ext_in.
  intros c Hc. apply in_seq in Hc. now rewrite nth_map_seq by lia.
Qed.

Lemma evaluate_classically_array (self : MatrixFunctional) (x : vector) :
  (1 <= length x)%nat ->
  evaluate_classically self (SolArray x) = Ok (bilinear_form self x).
Proof.
  intros Hlen. unfold evaluate_classically, diags_toarray.
  destruct (Nat.eqb_spec (length x) 0) as [E|_]; [lia|]. cbn [bind].
  f_equal. unfold bilinear_form, dot, matvec.
  rewrite (map2_nth Cmult x _ C0 C0) by now rewrite !length_map, length_seq.
  f_equal. apply map_ext_in. intros r Hr. apply in_seq in Hr.
  rewrite map_map, nth_map_seq by lia.
  fold (dot (map (fun c => diags_entry
                             [off_diag self; main_diag self; off_diag self]
                             [(-1)%Z; 0%Z; 1%Z] r c) (seq 0 (length x))) x).
  rewrite dot_row, Csum_scal, map_map. f_equal. apply map_ext. intros c.
  rewrite diags_entry_toeplitz. unfold amp. now rewrite Cmult_assoc.
Qed.

(** C4: for a numeric vector x of length >= 2, evaluate_classically(x) is
    x^T A x, the double sum of x[r] * A[r][c] * x[c] without conjugation,
    where A has main_diag on the diagonal, off_diag on the two adjacent
    diagonals and zero elsewhere; with main_diag = 2 and off_diag = 1,
    evaluate_classically([1, 1]) = 6. *)
Theorem evaluate_classically_bilinear (self : MatrixFunctional) (x : vector) :
  ((2 <= length x)%nat ->
   evaluate_classically self (SolArray x) = Ok (bilinear_form self x))
  /\ evaluate_classically (mkMF 2 1) (SolArray [C1; C1]) = Ok (RtoC 6).
Proof.
  split.
  - intros Hlen. apply evaluate_classically_array. lia.
  - rewrite evaluate_classically_array by (simpl; lia).
    f_equal. unfold bilinear_form, toeplitz_entry, amp. simpl. c_eq.
Qed.

Lemma evaluate_classically_bilinear_witness :
  (2 <= length [Ci; C1; C0])%nat
  /\ evaluate_classically (mkMF 2 1) (SolArray [Ci; C1; C0])
     = Ok (bilinear_form (mkMF 2 1) [Ci; C1; C0]).
Proof.
  split; [simpl; lia|].
  apply (proj1 (evaluate_classically_bilinear (mkMF 2 1) [Ci; C1; C0])).
  simpl; lia.
Defined.

(** ** observable_circuit *)

Lemma nth_flat_map_pair {X A : Type} (g1 g2 : X -> A) (xs : list X)
  (k : nat) (dx : X) (d : A) :
  (k < length xs)%nat ->
  nth (2 * k) (flat_map (fun x => [g1 x; g2 x]) xs) d = g1 (nth k xs dx)
  /\ nth (2 * k + 1) (flat_map (fun x => [g1 x; g2 x]) xs) d
     = g2 (nth k xs dx).
Proof.
  revert k. induction xs as [|x xs IH]; intros k Hk; simpl in Hk; [lia|].
  destruct k as [|k].
  - split; reflexivity.
  - replace (2 * S k)%nat with (S (S (2 * k))) by lia.
    replace (S (S (2 * k)) + 1)%nat with (S (S (2 * k + 1))) by lia.
    cbn [flat_map app nth]. apply IH. lia.
Qed.

Lemma length_flat_map_pair {X A : Type} (g1 g2 : X -> A) (xs : list X) :
  length (flat_map (fun x => [g1 x; g2 x]) xs) = (2 * length xs)%nat.
Proof. induction xs as [|x xs IH]; simpl; [reflexivity | rewrite IH; lia]. Qed.

Lemma nth_range (n : Z) (k : nat) :
  (Z.of_nat k < n)%Z -> nth k (range n) 0%Z = Z.of_nat k.
Proof.
  intros Hk. unfold range.
  change 0%Z with (Z.of_nat 0). rewrite map_nth, seq_nth by lia. reflexivity.
Qed.

(** Indexing a list made of a head and pairs. *)
Lemma getitem_pairs {A : Type} (a : A) (g1 g2 : Z -> A) (n : Z) :
  let l := a :: flat_map (fun i => [g1 i; g2 i]) (range n) in
  (0 <= n)%Z ->
  len l = (2 * n + 1)%Z
  /\ getitem l 0 = Ok a
  /\ forall i, (0 <= i < n)%Z ->
       getitem l (2 * i + 1) = Ok (g1 i) /\ getitem l (2 * i + 2) = Ok (g2 i).
Proof.
  intros l Hn.
  assert (Hlen : length l = S (2 * Z.to_nat n)).
  { unfold l. cbn [length]. now rewrite length_flat_map_pair, length_range. }
  split; [unfold len; lia|]. split; [reflexivity|].
  intros i Hi.
  destruct (@nth_flat_map_pair _ _ g1 g2 (range n) (Z.to_nat i) 0%Z a)
    as [H1 H2]; [rewrite length_range; lia|].
  rewrite nth_range in H1, H2 by lia. rewrite Z2Nat.id in H1, H2 by lia.
  split.
  - rewrite (getitem_in_range l a) by (unfold len; lia).
    replace (Z.to_nat (2 * i + 1)) with (S (2 * Z.to_nat i)) by lia.
    unfold l. cbn [nth]. now rewrite H1.
  - rewrite (getitem_in_range l a) by (unfold len; lia).
    replace (Z.to_nat (2 * i + 2)) with (S (2 * Z.to_nat i + 1)) by lia.
    unfold l. cbn [nth]. now rewrite H2.
Qed.

(** The inner loop appends one CNOT per target. *)
Lemma cx_loop (n i : Z) (js : list Z) (gates : list Gate) :
  (0 <= i < n)%Z -> (forall j, In j js -> (0 <= j < i)%Z) ->
  for_each js (fun qc j => cx qc i j) (mkQC n gates)
  = Ok (mkQC n (gates ++ map (fun j => CX i j) js)).
Proof.
  intros Hi. revert gates.
  induction js as [|j js IH]; intros gates Hjs; simpl.
  - now rewrite app_nil_r.
  - assert (Hj : (0 <= j < i)%Z) by (apply Hjs; now left).
    unfold cx at 1, valid_qubit. cbn [qc_num_qubits qc_data].
    destruct (Z.leb_spec 0 i); [|lia].
    destruct (Z.ltb_spec i n); [|lia].
    destruct (Z.leb_spec 0 j); [|lia].
    destruct (Z.ltb_spec j n); [|lia].
    destruct (Z.eqb_spec i j); [lia|]. cbn [andb negb bind].
    rewrite IH by (intros; apply Hjs; now right).
    now rewrite <- app_assoc.
Qed.

Lemma observable_circuit_built (n : Z) :
  (0 <= n)%Z ->
  observable_circuit n
  = Ok (mkQC n []
        :: flat_map (fun i => [measure_circuit n i; measure_circuit n i])
                    (range n)).
Proof.
  intros Hn. unfold observable_circuit, new_circuit.
  destruct (Z.ltb_spec n 0); [lia|]. cbn [bind app].
  apply (for_each_append (range n) _
           (fun i => [measure_circuit n i; measure_circuit n i])).
  intros i acc Hi. apply in_range in Hi. cbn [bind].
  rewrite cx_loop by (lia || (intros j Hj; now apply in_range in Hj)).
  cbn [bind app]. unfold h, valid_qubit. cbn [qc_num_qubits qc_data].
  destruct (Z.leb_spec 0 i); [|lia].
  destruct (Z.ltb_spec i n); [|lia]. reflexivity.
Qed.

Lemma observable_circuit_entries (n : Z) :
  (1 <= n)%Z ->
  exists qcs,
    observable_circuit n = Ok qcs
    /\ len qcs = (2 * n + 1)%Z
    /\ Forall (fun qc => qc_num_qubits qc = n) qcs
    /\ getitem qcs 0 = Ok (mkQC n [])
    /\ forall i, (0 <= i < n)%Z ->
         getitem qcs (2 * i + 1) = Ok (measure_circuit n i)
         /\ getitem qcs (2 * i + 2) = Ok (measure_circuit n i)
         /\ getitem qcs (2 * i + 1) = getitem qcs (2 * i + 2).
Proof.
  intros Hn. eexists. split; [apply observable_circuit_built; lia|].
  destruct (@getitem_pairs _ (mkQC n []) (measure_circuit n)
              (measure_circuit n) n) as [Hlen [H0 Hpairs]]; [lia|].
  split; [exact Hlen|]. split.
  { constructor; [reflexivity|]. apply Forall_forall. intros qc Hqc.
    apply in_flat_map in Hqc.
    destruct Hqc as [i [_ [<-|[<-|[]]]]]; reflexivity. }
  split; [exact H0|].
  intros i Hi. destruct (Hpairs i Hi) as [E1 E2].
  split; [exact E1|]. split; [exact E2|]. now rewrite E1, E2.
Qed.

(** C5: for n >= 1, observable_circuit(n) returns 2n+1 circuits on n
    qubits; the one at index 0 is empty; for each i in [0, n) the circuit
    made of a CNOT from control i to target j for j = 0 .. i-1 in increasing
    order, followed by a Hadamard on qubit i, sits at index 2i+1 and at
    index 2i+2, so the two are identical. *)
Theorem observable_circuit_spec (n : Z) :
  (1 <= n)%Z ->
  exists qcs,
    observable_circuit n = Ok qcs
    /\ len qcs = (2 * n + 1)%Z
    /\ Forall (fun qc => qc_num_qubits qc = n) qcs
    /\ getitem qcs 0 = Ok (mkQC n [])
    /\ forall i, (0 <= i < n)%Z ->
         getitem qcs (2 * i + 1) = Ok (measure_circuit n i)
         /\ getitem qcs (2 * i + 2) = Ok (measure_circuit n i)
         /\ getitem qcs (2 * i + 1) = getitem qcs (2 * i + 2).
Proof. exact (@observable_circuit_entries n). Qed.

Lemma observable_circuit_spec_witness :
  (1 <= 2)%Z
  /\ exists qcs,
       observable_circuit 2 = Ok qcs
       /\ getitem qcs 3 = Ok (mkQC 2 [CX 1 0; H 1])
       /\ getitem qcs 4 = Ok (mkQC 2 [CX 1 0; H 1]).
Proof.
  split; [lia|].
  destruct (@observable_circuit_spec 2) as [qcs [E [_ [_ [_ Hi]]]]]; [lia|].
  exists qcs. split; [exact E|].
  destruct (Hi 1%Z) as [E1 [E2 _]]; [lia|]. split; [exact E1 | exact E2].
Defined.

(** ** Kronecker products and shapes *)

Lemma has_shapeb_true (rows cols : nat) (M : matrix) :
  has_shape rows cols M -> has_shapeb rows cols M = true.
Proof.
  intros [Hr Hc]. unfold has_shapeb.
  rewrite Hr, Nat.eqb_refl. cbn [andb]. apply forallb_forall.
  intros row Hrow. rewrite Forall_forall in Hc.
  rewrite (Hc row Hrow). apply Nat.eqb_refl.
Qed.

Lemma has_shapeb_wrong_rows (rows cols : nat) (M : matrix) :
  length M <> rows -> has_shapeb rows cols M = false.
Proof.
  intros Hr. unfold has_shapeb.
  destruct (Nat.eqb_spec (length M) rows); [contradiction | reflexivity].
Qed.

Lemma length_flat_map_const {X A : Type} (f : X -> list A) (xs : list X)
  (m : nat) :
  (forall x, In x xs -> length (f x) = m) ->
  length (flat_map f xs) = (length xs * m)%nat.
Proof.
  induction xs as [|x xs IH]; intros Hf; simpl; [reflexivity|].
  rewrite length_app, Hf by now left.
  rewrite IH by (intros; apply Hf; now right). reflexivity.
Qed.

Lemma kron_shape (ra ca rb cb : nat) (A B : matrix) :
  has_shape ra ca A -> has_shape rb cb B ->
  has_shape (ra * rb) (ca * cb) (kron A B).
Proof.
  intros [HrA HcA] [HrB HcB]. rewrite Forall_forall in HcA, HcB.
  unfold kron. split.
  - rewrite (@length_flat_map_const _ _ _ A rb).
    + now rewrite HrA.
    + intros row _. now rewrite length_map.
  - apply Forall_forall. intros row Hrow.
    apply in_flat_map in Hrow. destruct Hrow as [rowA [HA Hrow]].
    apply in_map_iff in Hrow. destruct Hrow as [rowB [<- HB]].
    rewrite (@length_flat_map_const _ _ _ rowA cb).
    + now rewrite (HcA rowA HA).
    + intros a _. rewrite length_map. now apply HcB.
Qed.

(** The 1 x 1 identity is a unit of the Kronecker product. *)
Lemma kron_1_l (A : matrix) : kron [[C1]] A = A.
Proof.
  unfold kron. cbn [flat_map]. rewrite app_nil_r.
  rewrite <- (map_id A) at 2. apply map_ext. intros row.
  rewrite app_nil_r. rewrite <- (map_id row) at 2.
  apply map_ext. intros a. apply Cmult_1_l.
Qed.

Lemma kron_1_r (A : matrix) : kron A [[C1]] = A.
Proof.
  unfold kron. induction A as [|row A IH]; [reflexivity|].
  cbn [flat_map map app]. f_equal; [|exact IH].
  clear IH. induction row as [|a row IH]; [reflexivity|].
  cbn [flat_map map app]. now rewrite IH, Cmult_1_r.
Qed.

Lemma acts_on_tensor (n m : nat) (a b : Operator) :
  acts_on n a -> acts_on m b -> acts_on (n + m) (tensor a b).
Proof.
  unfold acts_on, tensor. intros Ha Hb. rewrite Nat.pow_add_r.
  now apply kron_shape.
Qed.

Lemma acts_on_tensor_power (a : Operator) (k : nat) :
  acts_on 1 a -> acts_on k (tensor_power a k).
Proof.
  intros Ha. induction k as [|k IH].
  - split; [reflexivity | repeat constructor].
  - change (acts_on (S k) (tensor (tensor_power a k) a)).
    rewrite <- Nat.add_1_r. now apply acts_on_tensor.
Qed.

Lemma acts_on_I : acts_on 1 (from_label I_label).
Proof. split; [reflexivity | repeat constructor]. Qed.

Lemma acts_on_zero_op : acts_on 1 zero_op.
Proof. split; [reflexivity | repeat constructor]. Qed.

Lemma acts_on_one_op : acts_on 1 one_op.
Proof. split; [reflexivity | repeat constructor]. Qed.

Lemma acts_on_unique (n m : nat) (a : Operator) :
  acts_on n a -> acts_on m a -> n = m.
Proof.
  intros [Hn _] [Hm _]. rewrite Hn in Hm.
  apply Nat.pow_inj_r in Hm; [exact Hm | lia].
Qed.

(** (I + Z) / 2 and (I - Z) / 2 are the two projectors. *)
Lemma zero_op_projector : zero_op = ProjectorZero.
Proof.
  unfold zero_op, ProjectorZero, op_half. cbn [map map2 from_label].
  repeat f_equal; c_eq.
Qed.

Lemma one_op_projector : one_op = ProjectorOne.
Proof.
  unfold one_op, ProjectorOne, op_half. cbn [map map2 from_label].
  repeat f_equal; c_eq.
Qed.

Lemma built_term_acts_on (p : Operator) (j i : nat) :
  acts_on 1 p -> acts_on (Nat.max 1 j + 1 + i) (built_term p j i).
Proof.
  intros Hp. unfold built_term.
  repeat apply acts_on_tensor; try assumption;
    apply acts_on_tensor_power; (apply acts_on_I || apply acts_on_one_op).
Qed.

Lemma claimed_term_acts_on (p : Operator) (j i : nat) :
  acts_on 1 p -> acts_on (j + 1 + i) (claimed_term p j i).
Proof.
  intros Hp. unfold claimed_term.
  repeat apply acts_on_tensor; try assumption;
    apply acts_on_tensor_power; (apply acts_on_I || apply acts_on_one_op).
Qed.

(** ** observable *)

Lemma tensor_repeat_iter (k : Z) (a op : Operator) :
  tensor_repeat k a op = Nat.iter (Z.to_nat k) (fun op => tensor op a) op.
Proof.
  unfold tensor_repeat. rewrite <- (length_range k).
  generalize (range k) as xs. intros xs. revert op.
  induction xs as [|x xs IH]; intros op; [reflexivity|].
  cbn [fold_left length]. now rewrite IH, Nat.iter_succ_r.
Qed.

(** Starting from one factor, [k] more make [k + 1]. *)
Lemma tensor_repeat_power (k : Z) (a : Operator) :
  tensor_repeat k a a = tensor_power a (S (Z.to_nat k)).
Proof.
  rewrite tensor_repeat_iter. unfold tensor_power.
  rewrite Nat.iter_succ_r. unfold tensor at 3. now rewrite kron_1_l.
Qed.

Lemma tensor_power_1 (a : Operator) : tensor_power a 1 = a.
Proof. unfold tensor_power. cbn [Nat.iter]. apply kron_1_l. Qed.

Lemma op_add_I_Z :
  op_add (from_label I_label) (from_label Z_label)
  = Ok (map2 (map2 Cplus) (from_label I_label) (from_label Z_label)).
Proof. reflexivity. Qed.

Lemma op_sub_I_Z :
  op_sub (from_label I_label) (from_label Z_label)
  = Ok (map2 (map2 Cminus) (from_label I_label) (from_label Z_label)).
Proof. reflexivity. Qed.

(** The identity prefix of iteration [i]: [j] factors, but one when
    [j = 0]. *)
Lemma prefix_built (j : Z) :
  (0 <= j)%Z ->
  (if (0 <? j)%Z
   then tensor_repeat (j - 1) (from_label I_label) (from_label I_label)
   else from_label I_label)
  = tensor_power (from_label I_label) (Nat.max 1 (Z.to_nat j)).
Proof.
  intros Hj. destruct (Z.ltb_spec 0 j).
  - rewrite tensor_repeat_power. f_equal. lia.
  - replace (Z.to_nat j) with 0%nat by lia. cbn [Nat.max].
    now rewrite tensor_power_1.
Qed.

(** What [observable] returns, entry by entry. *)
Lemma observable_built (n : Z) :
  (1 <= n)%Z ->
  observable n
  = Ok (tensor_power (from_label I_label) (Z.to_nat n)
        :: flat_map
             (fun i => [built_term zero_op (Z.to_nat (n - i - 1)) (Z.to_nat i);
                        built_term one_op (Z.to_nat (n - i - 1)) (Z.to_nat i)])
             (range n)).
Proof.
  intros Hn. unfold observable.
  rewrite op_add_I_Z. cbn [bind]. rewrite op_sub_I_Z. cbn [bind app].
  fold zero_op. fold one_op.
  rewrite tensor_repeat_power.
  replace (S (Z.to_nat (n - 1))) with (Z.to_nat n) by lia.
  apply (for_each_append (range n) _
           (fun i => [built_term zero_op (Z.to_nat (n - i - 1)) (Z.to_nat i);
                      built_term one_op (Z.to_nat (n - i - 1)) (Z.to_nat i)])).
  intros i acc Hi. apply in_range in Hi.
  rewrite prefix_built by lia. unfold built_term.
  destruct (Z.ltb_spec 0 i).
  - rewrite tensor_repeat_power.
    replace (S (Z.to_nat (i - 1))) with (Z.to_nat i) by lia. reflexivity.
  - replace (Z.to_nat i) with 0%nat by lia.
    unfold tensor_power at 2 4. cbn [Nat.iter].
    unfold tensor at 1 3. now rewrite !kron_1_r.
Qed.

(** Where the code agrees with the specification: an identity prefix of
    [j >= 1] factors. *)
Lemma built_term_claimed (p : Operator) (j i : nat) :
  (1 <= j)%nat -> built_term p j i = claimed_term p j i.
Proof.
  intros Hj. unfold built_term, claimed_term. now rewrite Nat.max_r by lia.
Qed.

(** Where it does not: with [j = 0] the entry has one factor too many. *)
Lemma built_term_last (p : Operator) (i : nat) :
  acts_on 1 p ->
  acts_on (i + 2) (built_term p 0 i) /\ acts_on (i + 1) (claimed_term p 0 i).
Proof.
  intros Hp. split.
  - replace (i + 2)%nat with (Nat.max 1 0 + 1 + i)%nat by (simpl; lia).
    now apply built_term_acts_on.
  - replace (i + 1)%nat with (0 + 1 + i)%nat by lia.
    now apply claimed_term_acts_on.
Qed.

Lemma observable_entries (n : Z) :
  (1 <= n)%Z ->
  exists ops,
    observable n = Ok ops
    /\ len ops = (2 * n + 1)%Z
    /\ getitem ops 0 = Ok (tensor_power (from_label I_label) (Z.to_nat n))
    /\ forall i, (0 <= i < n)%Z ->
         getitem ops (2 * i + 1)
         = Ok (built_term zero_op (Z.to_nat (n - i - 1)) (Z.to_nat i))
         /\ getitem ops (2 * i + 2)
            = Ok (built_term one_op (Z.to_nat (n - i - 1)) (Z.to_nat i)).
Proof.
  intros Hn. eexists. split; [apply observable_built; lia|].
  destruct (@getitem_pairs _
              (tensor_power (from_label I_label) (Z.to_nat n))
              (fun i => built_term zero_op (Z.to_nat (n - i - 1)) (Z.to_nat i))
              (fun i => built_term one_op (Z.to_nat (n - i - 1)) (Z.to_nat i))
              n) as [Hlen [H0 Hpairs]]; [lia|].
  split; [exact Hlen|]. split; [exact H0|]. exact Hpairs.
Qed.

(** All entries but the last pair are the ones of the specification and
    act on [n] qubits; the last pair, for [i = n - 1], acts on [n + 1]. *)
Lemma observable_entries_claimed (n : Z) :
  (1 <= n)%Z ->
  exists ops,
    observable n = Ok ops
    /\ (forall i, (0 <= i < n - 1)%Z ->
          getitem ops (2 * i + 1)
          = Ok (claimed_term zero_op (Z.to_nat (n - i - 1)) (Z.to_nat i))
          /\ getitem ops (2 * i + 2)
             = Ok (claimed_term one_op (Z.to_nat (n - i - 1)) (Z.to_nat i)))
    /\ (exists op, getitem ops (2 * n - 1) = Ok op
                   /\ acts_on (Z.to_nat n + 1) op)
    /\ (exists op, getitem ops (2 * n) = Ok op
                   /\ acts_on (Z.to_nat n + 1) op).
Proof.
  intros Hn.
  destruct (@observable_entries n Hn) as [ops [E [_ [_ Hpairs]]]].
  exists ops. split; [exact E|]. split; [|split].
  - intros i Hi. destruct (Hpairs i) as [E1 E2]; [lia|].
    rewrite built_term_claimed in E1, E2 by lia. now split.
  - destruct (Hpairs (n - 1)%Z) as [E1 _]; [lia|].
    replace (2 * (n - 1) + 1)%Z with (2 * n - 1)%Z in E1 by lia.
    replace (Z.to_nat (n - (n - 1) - 1)) with 0%nat in E1 by lia.
    eexists. split; [exact E1|].
    replace (Z.to_nat n + 1)%nat with (Z.to_nat (n - 1) + 2)%nat by lia.
    apply built_term_last, acts_on_zero_op.
  - destruct (Hpairs (n - 1)%Z) as [_ E2]; [lia|].
    replace (2 * (n - 1) + 2)%Z with (2 * n)%Z in E2 by lia.
    replace (Z.to_nat (n - (n - 1) - 1)) with 0%nat in E2 by lia.
    eexists. split; [exact E2|].
    replace (Z.to_nat n + 1)%nat with (Z.to_nat (n - 1) + 2)%nat by lia.
    apply built_term_last, acts_on_one_op.
Qed.

(** C1 fails on the code, at n = 1: observable(1) returns three operators,
    but entries 1 and 2 are I (x) zero_op and I (x) one_op, which act on two
    qubits, not on one; the specification has ProjectorZero and ProjectorOne
    alone there (empty identity prefix for j = 0). *)
Theorem observable_1_entries_act_on_two_qubits :
  exists ops,
    observable 1 = Ok ops
    /\ len ops = 3%Z
    /\ getitem ops 1 = Ok (tensor (from_label I_label) zero_op)
    /\ getitem ops 2 = Ok (tensor (from_label I_label) one_op)
    /\ acts_on 2 (tensor (from_label I_label) zero_op)
    /\ acts_on 2 (tensor (from_label I_label) one_op)
    /\ ~ acts_on 1 (tensor (from_label I_label) zero_op)
    /\ claimed_term zero_op 0 0 = ProjectorZero
    /\ tensor (from_label I_label) zero_op <> claimed_term zero_op 0 0.
Proof.
  assert (Hb : forall p, built_term p 0 0 = tensor (from_label I_label) p).
  { intros p. unfold built_term. cbn [Nat.max].
    rewrite tensor_power_1. unfold tensor_power. cbn [Nat.iter].
    unfold tensor at 1. now rewrite kron_1_r. }
  assert (Hc : claimed_term zero_op 0 0 = zero_op).
  { unfold claimed_term, tensor_power. cbn [Nat.iter].
    unfold tensor. now rewrite kron_1_r, kron_1_l. }
  assert (H2 : forall p, acts_on 1 p ->
                         acts_on 2 (tensor (from_label I_label) p)).
  { intros p Hp. apply (@acts_on_tensor 1 1); [apply acts_on_I | exact Hp]. }
  destruct (@observable_entries 1) as [ops [E [Hlen [_ Hi]]]]; [lia|].
  destruct (Hi 0%Z) as [E1 E2]; [lia|].
  change (Z.to_nat (1 - 0 - 1)) with 0%nat in E1, E2.
  change (Z.to_nat 0) with 0%nat in E1, E2.
  rewrite Hb in E1, E2.
  exists ops.
  split; [exact E|]. split; [exact Hlen|].
  split; [exact E1|]. split; [exact E2|].
  split; [apply H2, acts_on_zero_op|].
  split; [apply H2, acts_on_one_op|].
  split; [|split].
  - intros Hone.
    pose proof (acts_on_unique Hone (H2 _ acts_on_zero_op)). discriminate.
  - rewrite Hc. apply zero_op_projector.
  - rewrite Hc. intros Heq. apply (f_equal (@length _)) in Heq.
    discriminate Heq.
Qed.

(** ** The builders on n < 1 *)

Lemma range_nonpos (n : Z) : (n <= 0)%Z -> range n = [].
Proof. intros Hn. unfold range. now replace (Z.to_nat n) with 0%nat by lia. Qed.

(** C6 (as the code has it): no builder validates n.  For every n < 1
    observable(n) returns the one-entry list [I], a single-qubit identity;
    observable_circuit(0) returns the one-entry list holding the empty
    circuit on no qubits; observable_circuit(n) fails only for n < 0, with
    the CircuitError of the QuantumCircuit constructor. *)
Theorem builders_below_one (n : Z) :
  (n < 1)%Z ->
  observable n = Ok [from_label I_label]
  /\ (n = 0%Z -> observable_circuit n = Ok [mkQC 0 []])
  /\ (n < 0 -> observable_circuit n = Raise CircuitError)%Z.
Proof.
  intros Hn. split; [|split].
  - unfold observable. rewrite op_add_I_Z. cbn [bind].
    rewrite op_sub_I_Z. cbn [bind app].
    rewrite (@range_nonpos n) by lia. cbn [for_each].
    unfold tensor_repeat. rewrite (@range_nonpos (n - 1)) by lia.
    reflexivity.
  - intros ->. reflexivity.
  - intros Hneg. unfold observable_circuit, new_circuit.
    destruct (Z.ltb_spec n 0); [reflexivity | lia].
Qed.

Lemma builders_below_one_witness :
  (0 < 1)%Z
  /\ observable 0 = Ok [from_label I_label]
  /\ observable_circuit 0 = Ok [mkQC 0 []].
Proof.
  split; [lia|].
  destruct (@builders_below_one 0) as [E1 [E2 _]]; [lia|].
  split; [exact E1 | exact (E2 eq_refl)].
Defined.

(** C6 fails as stated: at n = 0 both builders return a list instead of
    failing. *)
Lemma builders_accept_zero :
  observable 0 = Ok [from_label I_label]
  /\ observable_circuit 0 = Ok [mkQC 0 []]
  /\ ~ ((exists e, observable 0 = Raise e)
        /\ (exists e, observable_circuit 0 = Raise e)).
Proof.
  assert (E1 : observable 0 = Ok [from_label I_label]) by reflexivity.
  assert (E2 : observable_circuit 0 = Ok [mkQC 0 []]) by reflexivity.
  split; [exact E1|]. split; [exact E2|].
  intros [[e He] _]. rewrite E1 in He. discriminate.
Qed.

(** ** The round trip *)

Lemma length_apply_gate (g : Gate) (psi : vector) :
  length (apply_gate g psi) = length psi.
Proof. unfold apply_gate. now rewrite length_map, length_seq. Qed.

Lemma length_run (qc : QuantumCircuit) (psi : vector) :
  length (run qc psi) = length psi.
Proof.
  unfold run. revert psi.
  induction (qc_data qc) as [|g gs IH]; intros psi; [reflexivity|].
  cbn [fold_left]. now rewrite IH, length_apply_gate.
Qed.

Lemma for_each_ok {A X : Type} (xs : list X) (body : A -> X -> result A)
  (acc : A) :
  (forall x acc', In x xs -> exists acc'', body acc' x = Ok acc'') ->
  exists acc', for_each xs body acc = Ok acc'.
Proof.
  revert acc. induction xs as [|x xs IH]; intros acc Hbody.
  - now exists acc.
  - destruct (Hbody x acc) as [acc' E]; [now left|].
    cbn [for_each]. rewrite E. cbn [bind].
    apply IH. intros; apply Hbody; now right.
Qed.

Section RoundTrip.

Variable n : nat.
Variable init_state : vector.
Hypothesis init_state_length : length init_state = (2 ^ n)%nat.

Variable observable_ops : list Operator.
Variable obs_circuits : list QuantumCircuit.

(** An observable on [n] qubits has an expectation value. *)
Lemma expectation_at_ok (i : Z) (op : Operator) (qc : QuantumCircuit) :
  getitem observable_ops i = Ok op -> getitem obs_circuits i = Ok qc ->
  acts_on n op ->
  exists v, expectation_at observable_ops obs_circuits init_state i = Ok v.
Proof.
  intros Eop Eqc Hop. unfold expectation_at.
  rewrite Eop, Eqc. cbn [bind]. unfold expectation_value.
  rewrite length_run, init_state_length.
  rewrite has_shapeb_true by exact Hop. eauto.
Qed.

(** An observable on another number of qubits has none. *)
Lemma expectation_at_mismatch (i : Z) (op : Operator) (qc : QuantumCircuit)
  (m : nat) :
  getitem observable_ops i = Ok op -> getitem obs_circuits i = Ok qc ->
  acts_on m op -> m <> n ->
  expectation_at observable_ops obs_circuits init_state i = Raise QiskitError.
Proof.
  intros Eop Eqc [Hrows _] Hm. unfold expectation_at.
  rewrite Eop, Eqc. cbn [bind]. unfold expectation_value.
  rewrite length_run, init_state_length.
  rewrite has_shapeb_wrong_rows; [reflexivity|].
  rewrite Hrows. intros E. apply Nat.pow_inj_r in E; [contradiction | lia].
Qed.

End RoundTrip.

(** For every n >= 1 the estimation stops at the observable of index
    2n - 1, which acts on n + 1 qubits. *)
Lemma estimate_fails (self : MatrixFunctional) (x : vector) (n : Z) :
  (1 <= n)%Z -> length x = (2 ^ Z.to_nat n)%nat ->
  estimate self x n = Raise QiskitError.
Proof.
  intros Hn Hx. unfold estimate, estimate_with.
  destruct (@observable_circuit_entries n Hn)
    as [qcs [-> [Hqlen [_ [Hq0 Hq]]]]].
  destruct (@observable_entries n Hn) as [ops [-> [Holen [Ho0 Ho]]]].
  cbn [bind]. unfold state_values.
  destruct (@expectation_at_ok (Z.to_nat n) x Hx ops qcs 0 _ _ Ho0 Hq0)
    as [norm ->].
  { apply acts_on_tensor_power, acts_on_I. }
  cbn [bind]. unfold len in Holen.
  replace (len ops) with (Z.of_nat (length ops)) by reflexivity.
  rewrite range3_odd_indices.
  replace (length ops / 2)%nat with (S (Z.to_nat (n - 1))).
  2:{ replace (length ops) with (1 + S (Z.to_nat (n - 1)) * 2)%nat by lia.
      now rewrite Nat.div_add by lia. }
  rewrite seq_S, map_app, for_each_app.
  match goal with
  | |- bind (bind (for_each ?xs ?body ?acc) _) _ = _ =>
      destruct (@for_each_ok _ _ xs body acc) as [vals ->]
  end.
  - intros i acc Hi. apply in_map_iff in Hi. destruct Hi as [k [<- Hk]].
    apply in_seq in Hk.
    destruct (Ho (Z.of_nat k)) as [Eo1 Eo2]; [lia|].
    destruct (Hq (Z.of_nat k)) as [Eq1 [Eq2 _]]; [lia|].
    assert (Hj : Nat.max 1 (Z.to_nat (n - Z.of_nat k - 1)) + 1
                 + Z.to_nat (Z.of_nat k) = Z.to_nat n) by lia.
    destruct (@expectation_at_ok (Z.to_nat n) x Hx ops qcs _ _ _ Eo1 Eq1)
      as [a ->].
    { rewrite <- Hj. apply built_term_acts_on, acts_on_zero_op. }
    replace (2 * Z.of_nat k + 1 + 1)%Z with (2 * Z.of_nat k + 2)%Z by lia.
    destruct (@expectation_at_ok (Z.to_nat n) x Hx ops qcs _ _ _ Eo2 Eq2)
      as [b ->].
    { rewrite <- Hj. apply built_term_acts_on, acts_on_one_op. }
    cbn [bind]. eauto.
  - cbn [bind map for_each Nat.add].
    destruct (Ho (n - 1)%Z) as [Eo1 _]; [lia|].
    destruct (Hq (n - 1)%Z) as [Eq1 _]; [lia|].
    replace (2 * Z.of_nat (Z.to_nat (n - 1)) + 1)%Z
      with (2 * (n - 1) + 1)%Z by lia.
    rewrite (@expectation_at_mismatch (Z.to_nat n) x Hx ops qcs _ _ _
               (Nat.max 1 (Z.to_nat (n - (n - 1) - 1)) + 1
                + Z.to_nat (n - 1)) Eo1 Eq1).
    + reflexivity.
    + apply built_term_acts_on, acts_on_zero_op.
    + lia.
Qed.


Unset Implicit Arguments.

(** ** Diagonal operators *)

Lemma length_diag d : length (diag d) = length d.
Proof. induction d; simpl; [reflexivity|]. now rewrite length_map, IHd. Qed.

Lemma diag_row_length d : Forall (fun row => length row = length d) (diag d).
Proof.
  induction d as [|a d IH]; simpl; constructor.
  - simpl. now rewrite repeat_length.
  - apply Forall_forall. intros row Hrow. apply in_map_iff in Hrow.
    destruct Hrow as [row' [<- Hrow']]. rewrite Forall_forall in IH.
    simpl. now rewrite (IH row' Hrow').
Qed.

Lemma scal_zeros a m : map (Cmult a) (repeat C0 m) = repeat C0 m.
Proof. induction m; simpl; [reflexivity|]. now rewrite IHm, Cmult_0_r. Qed.

Lemma zero_scal (row : list C) : map (Cmult C0) row = repeat C0 (length row).
Proof. induction row; simpl; [reflexivity|]. now rewrite IHrow, Cmult_0_l. Qed.

Lemma flat_map_zeros (m : nat) (row : list C) :
  flat_map (fun a => map (Cmult a) row) (repeat C0 m)
  = repeat C0 (m * length row).
Proof.
  induction m; simpl; [reflexivity|].
  now rewrite IHm, zero_scal, repeat_app.
Qed.

(** Block form of the diagonal matrix of a concatenation. *)
Lemma diag_app (u v : list C) :
  diag (u ++ v)
  = map (fun row => row ++ repeat C0 (length v)) (diag u)
    ++ map (fun row => repeat C0 (length u) ++ row) (diag v).
Proof.
  induction u as [|a u IH]; simpl.
  - now rewrite map_id.
  - rewrite IH, length_app, repeat_app, map_app, !map_map. reflexivity.
Qed.

Lemma diag_scal (a : C) (d : list C) :
  map (map (Cmult a)) (diag d) = diag (map (Cmult a) d).
Proof.
  induction d as [|b d IH]; simpl; [reflexivity|].
  rewrite scal_zeros, length_map, <- IH, !map_map. f_equal.
  apply map_ext. intros row. simpl. now rewrite Cmult_0_r.
Qed.

Lemma length_dkron (d1 d2 : list C) :
  length (dkron d1 d2) = (length d1 * length d2)%nat.
Proof.
  unfold dkron. apply length_flat_map_const. intros a _. apply length_map.
Qed.

Lemma map_flat_map {X A B : Type} (g : A -> B) (f : X -> list A) (xs : list X) :
  map g (flat_map f xs) = flat_map (fun x => map g (f x)) xs.
Proof.
  induction xs as [|x xs IH]; simpl; [reflexivity|].
  now rewrite map_app, IH.
Qed.

Lemma kron_diag (d1 d2 : list C) :
  kron (diag d1) (diag d2) = diag (dkron d1 d2).
Proof.
  induction d1 as [|a d1 IH]; [reflexivity|].
  unfold dkron. cbn [flat_map]. fold (dkron d1 d2).
  rewrite diag_app, <- IH, <- diag_scal.
  pose proof (diag_row_length d2) as Hrows. rewrite Forall_forall in Hrows.
  unfold kron. cbn [diag flat_map]. f_equal.
  - rewrite map_map. apply map_ext_in. intros row Hrow.
    cbn [flat_map]. rewrite flat_map_zeros. f_equal.
    rewrite length_dkron. now rewrite (Hrows row Hrow).
  - rewrite map_flat_map, flat_map_concat_map, map_map, <- flat_map_concat_map.
    apply flat_map_ext. intros ra. rewrite map_map.
    apply map_ext_in. intros rb Hrb. cbn [flat_map].
    rewrite zero_scal, length_map. now rewrite (Hrows rb Hrb).
Qed.

Lemma wsum_app (u v : list C) (w : nat -> C) :
  wsum (u ++ v) w = (wsum u w + wsum v (fun k => w (length u + k)%nat))%C.
Proof.
  revert w. induction u as [|a u IH]; intros w; simpl.
  - now rewrite Cplus_0_l.
  - now rewrite IH, Cplus_assoc.
Qed.

Lemma wsum_scal (a : C) (d : list C) (w : nat -> C) :
  wsum (map (Cmult a) d) w = (a * wsum d w)%C.
Proof.
  revert w. induction d as [|b d IH]; intros w; simpl.
  - now rewrite Cmult_0_r.
  - now rewrite IH, Cmult_plus_distr_l, Cmult_assoc.
Qed.

Lemma wsum_ext (d : list C) (w1 w2 : nat -> C) :
  (forall k, (k < length d)%nat -> w1 k = w2 k) -> wsum d w1 = wsum d w2.
Proof.
  revert w1 w2.
  induction d as [|a d IH]; intros w1 w2 Hw; simpl; [reflexivity|].
  rewrite (Hw 0%nat) by (simpl; lia). f_equal.
  apply IH. intros k Hk. apply Hw. simpl. lia.
Qed.

Lemma wsum_dkron (d1 d2 : list C) (w : nat -> C) :
  wsum (dkron d1 d2) w
  = wsum d1 (fun u => wsum d2 (fun v => w (u * length d2 + v)%nat)).
Proof.
  revert w. induction d1 as [|a d1 IH]; intros w; [reflexivity|].
  unfold dkron. cbn [flat_map]. fold (dkron d1 d2).
  rewrite wsum_app, wsum_scal, IH, length_map. cbn [wsum].
  f_equal. apply wsum_ext. intros u _. apply wsum_ext. intros v _.
  f_equal. lia.
Qed.

(** The expectation value of a diagonal operator. *)
Lemma dot_zeros (m : nat) (v : vector) : dot (repeat C0 m) v = C0.
Proof.
  unfold dot. revert v. induction m; intros [|p v]; simpl; try reflexivity.
  rewrite IHm. c_eq.
Qed.

Lemma dot_cons (a p : C) (u v : vector) :
  dot (a :: u) (p :: v) = (a * p + dot u v)%C.
Proof. reflexivity. Qed.

Lemma matvec_diag (d : list C) (psi : vector) :
  length psi = length d ->
  matvec (diag d) psi = map2 Cmult d psi.
Proof.
  revert psi. induction d as [|a d IH]; intros [|p psi] Hlen;
    simpl in Hlen; try discriminate; [reflexivity|].
  cbn [diag matvec map map2]. f_equal.
  - now rewrite dot_cons, dot_zeros, Cplus_0_r.
  - rewrite map_map. rewrite <- IH by lia. unfold matvec.
    apply map_ext. intros row.
    now rewrite dot_cons, Cmult_0_l, Cplus_0_l.
Qed.

Lemma dot_conj_diag (d : list C) (psi : vector) :
  length psi = length d ->
  dot (map Cconj psi) (map2 Cmult d psi)
  = wsum d (fun k => (Cconj (amp psi k) * amp psi k)%C).
Proof.
  revert psi. induction d as [|a d IH]; intros [|p psi] Hlen;
    simpl in Hlen; try discriminate; [reflexivity|].
  cbn [map map2 wsum]. rewrite dot_cons, IH by lia.
  unfold amp. cbn [nth]. f_equal. c_eq.
Qed.

Lemma expectation_diag (d : list C) (psi : vector) :
  length psi = length d ->
  expectation_value (diag d) psi
  = Ok (wsum d (fun k => (Cconj (amp psi k) * amp psi k)%C)).
Proof.
  intros Hlen. unfold expectation_value.
  rewrite has_shapeb_true.
  2:{ split; [now rewrite length_diag|]. rewrite Hlen. apply diag_row_length. }
  now rewrite matvec_diag, dot_conj_diag by assumption.
Qed.

Lemma Sigma_S (m : nat) (g : nat -> C) :
  Sigma (S m) g = (Sigma m g + g m)%C.
Proof.
  unfold Sigma. rewrite seq_S, map_app, Csum_app. simpl. now rewrite Cplus_0_r.
Qed.

Lemma Sigma_ext (m : nat) (g1 g2 : nat -> C) :
  (forall k, (k < m)%nat -> g1 k = g2 k) -> Sigma m g1 = Sigma m g2.
Proof.
  intros Hg. unfold Sigma. f_equal. apply map_ext_in.
  intros k Hk. apply in_seq in Hk. apply Hg. lia.
Qed.

(** Pairing consecutive terms. *)
Lemma Sigma_pairs (m : nat) (g : nat -> C) :
  Sigma (2 * m) g = Sigma m (fun u => (g (2 * u)%nat + g (2 * u + 1)%nat)%C).
Proof.
  induction m as [|m IH]; [reflexivity|].
  replace (2 * S m)%nat with (S (S (2 * m))) by lia.
  rewrite !Sigma_S, IH. replace (S (2 * m)) with (2 * m + 1)%nat by lia.
  now rewrite Cplus_assoc.
Qed.

Lemma tensor_power_diag (d : list C) (k : nat) :
  tensor_power (diag d) k = diag (dpow d k).
Proof.
  induction k as [|k IH]; [reflexivity|].
  change (tensor (tensor_power (diag d) k) (diag d)
          = diag (dkron (dpow d k) d)).
  unfold tensor. now rewrite IH, kron_diag.
Qed.

Lemma length_dpow (d : list C) (k : nat) :
  length (dpow d k) = (length d ^ k)%nat.
Proof.
  induction k as [|k IH]; [reflexivity|].
  change (length (dkron (dpow d k) d) = (length d ^ S k)%nat).
  rewrite length_dkron, IH. simpl. lia.
Qed.

(** The all-ones pattern, the only non-zero entry of the [i]-fold power of
    the one-projector. *)
Lemma wsum_dpow_one (i : nat) (g : nat -> C) :
  wsum (dpow [C0; C1] i) g = g (2 ^ i - 1)%nat.
Proof.
  revert g. induction i as [|i IH]; intros g.
  - simpl. c_eq.
  - change (wsum (dkron (dpow [C0; C1] i) [C0; C1]) g = g (2 ^ S i - 1)%nat).
    rewrite wsum_dkron, IH. cbn [wsum length].
    replace ((2 ^ i - 1) * 2 + 1)%nat with (2 ^ S i - 1)%nat.
    + c_eq.
    + pose proof (Nat.pow_nonzero 2 i). simpl. lia.
Qed.

Lemma wsum_dpow_id (j : nat) (g : nat -> C) :
  wsum (dpow [C1; C1] j) g = Sigma (2 ^ j) g.
Proof.
  revert g. induction j as [|j IH]; intros g.
  - unfold Sigma. simpl. c_eq.
  - change (wsum (dkron (dpow [C1; C1] j) [C1; C1]) g = Sigma (2 ^ S j) g).
    rewrite wsum_dkron, IH. cbn [wsum length].
    replace (2 ^ S j)%nat with (2 * 2 ^ j)%nat by (simpl; lia).
    rewrite Sigma_pairs. apply Sigma_ext. intros u _.
    replace (u * 2 + 0)%nat with (2 * u)%nat by lia.
    replace (u * 2 + 1)%nat with (2 * u + 1)%nat by lia. c_eq.
Qed.

(** The observable of the specification for the pair [(j, i)] is diagonal,
    and its expectation value collects the weights of the indices whose low
    [i] bits are all one and whose bit [i] is the projector's. *)
Lemma claimed_term_diag (p0 p1 : C) (j i : nat) :
  claimed_term (diag [p0; p1]) j i
  = diag (dkron (dkron (dpow [C1; C1] j) [p0; p1]) (dpow [C0; C1] i)).
Proof.
  unfold claimed_term.
  change (from_label I_label) with (diag [C1; C1]).
  rewrite one_op_projector. change ProjectorOne with (diag [C0; C1]).
  unfold tensor. now rewrite !tensor_power_diag, !kron_diag.
Qed.

Lemma wsum_claimed (p0 p1 : C) (j i : nat) (w : nat -> C) :
  wsum (dkron (dkron (dpow [C1; C1] j) [p0; p1]) (dpow [C0; C1] i)) w
  = Sigma (2 ^ j)
      (fun u => (p0 * w (2 * u * 2 ^ i + (2 ^ i - 1))%nat
                 + p1 * w ((2 * u + 1) * 2 ^ i + (2 ^ i - 1))%nat)%C).
Proof.
  rewrite wsum_dkron, wsum_dkron, wsum_dpow_id. apply Sigma_ext. intros u _.
  cbn [wsum length]. rewrite !wsum_dpow_one, length_dpow. cbn [length].
  replace (u * 2 + 0)%nat with (2 * u)%nat by lia.
  replace (u * 2 + 1)%nat with (2 * u + 1)%nat by lia. c_eq.
Qed.

(** ** Bits of the indices *)

Lemma testbit_block (q r i : nat) :
  (r < 2 ^ i)%nat -> Nat.testbit (q * 2 ^ i + r) i = Nat.odd q.
Proof.
  intros Hr. rewrite Nat.testbit_eqb.
  rewrite Nat.div_add_l by (apply Nat.pow_nonzero; lia).
  rewrite Nat.div_small, Nat.add_0_r by assumption.
  destruct (Nat.Even_or_Odd q) as [[m ->]|[m ->]].
  - rewrite Nat.odd_mul. cbn [Nat.odd Nat.even negb andb].
    now rewrite Nat.mul_comm, Nat.Div0.mod_mul.
  - rewrite Nat.odd_add, Nat.odd_mul. cbn [Nat.odd Nat.even negb andb xorb].
    replace (2 * m + 1)%nat with (1 + m * 2)%nat by lia.
    now rewrite Nat.Div0.mod_add.
Qed.

Lemma flip_bit_clear (k t : nat) :
  Nat.testbit k t = false -> flip_bit k t = (k + 2 ^ t)%nat.
Proof.
  intros Hk. unfold flip_bit. symmetry. apply Nat.add_nocarry_lxor.
  apply Nat.bits_inj. intros m.
  rewrite Nat.land_spec, Nat.bits_0, Nat.pow2_bits_eqb.
  destruct (Nat.eqb_spec t m) as [<-|_].
  - now rewrite Hk.
  - apply andb_false_r.
Qed.

Lemma flip_bit_involutive (k t : nat) : flip_bit (flip_bit k t) t = k.
Proof.
  unfold flip_bit.
  now rewrite Nat.lxor_assoc, Nat.lxor_nilpotent, Nat.lxor_0_r.
Qed.

Lemma flip_bit_set (k t : nat) :
  Nat.testbit k t = false -> flip_bit (k + 2 ^ t) t = k.
Proof.
  intros Hk. rewrite <- (flip_bit_clear _ _ Hk). apply flip_bit_involutive.
Qed.

(** ** Amplitudes after one gate *)

Lemma amp_apply_CX (c t : Z) (psi : vector) (k : nat) :
  (k < length psi)%nat ->
  amp (apply_gate (CX c t) psi) k
  = if Nat.testbit k (Z.to_nat c)
    then amp psi (flip_bit k (Z.to_nat t))
    else amp psi k.
Proof. intros Hk. unfold amp at 1, apply_gate. now rewrite nth_map_seq. Qed.

Lemma amp_apply_H (q : Z) (psi : vector) (k : nat) :
  (k < length psi)%nat ->
  amp (apply_gate (H q) psi) k
  = Cscal (/ sqrt 2)
      (if Nat.testbit k (Z.to_nat q)
       then amp psi (flip_bit k (Z.to_nat q)) - amp psi k
       else amp psi k + amp psi (flip_bit k (Z.to_nat q)))%C.
Proof. intros Hk. unfold amp at 1, apply_gate. now rewrite nth_map_seq. Qed.

(** ** The CNOT cascade *)

Lemma cx_state_S (i m : nat) (x : vector) :
  cx_state i (S m) x
  = apply_gate (CX (Z.of_nat i) (Z.of_nat m)) (cx_state i m x).
Proof.
  unfold cx_state. now rewrite range_succ, map_app, fold_left_app.
Qed.

Lemma length_cx_state (i m : nat) (x : vector) :
  length (cx_state i m x) = length x.
Proof.
  induction m as [|m IH]; [reflexivity|].
  now rewrite cx_state_S, length_apply_gate.
Qed.

(** An index whose control bit is clear keeps its amplitude. *)
Lemma cx_state_control_clear (i m : nat) (x : vector) (k : nat) :
  (k < length x)%nat -> Nat.testbit k i = false ->
  amp (cx_state i m x) k = amp x k.
Proof.
  intros Hk Hbit. induction m as [|m IH]; [reflexivity|].
  rewrite cx_state_S, amp_apply_CX by now rewrite length_cx_state.
  now rewrite Nat2Z.id, Hbit.
Qed.

(** With the control bit set, the low bits are flipped one after the other:
    the amplitude of [b 0...0] ends up at [b 0...0 1...1] (m ones). *)
Lemma cx_state_control_set (i m : nat) (x : vector) (u : nat) :
  (m <= i)%nat ->
  ((2 * u + 1) * 2 ^ i + (2 ^ m - 1) < length x)%nat ->
  amp (cx_state i m x) ((2 * u + 1) * 2 ^ i + (2 ^ m - 1))
  = amp x ((2 * u + 1) * 2 ^ i).
Proof.
  induction m as [|m IH]; intros Hm Hlen.
  - simpl. now rewrite Nat.add_0_r.
  - assert (Hpm : (0 < 2 ^ m)%nat)
      by (apply Nat.neq_0_lt_0, Nat.pow_nonzero; lia).
    assert (Hlt : (2 ^ S m <= 2 ^ i)%nat) by (apply Nat.pow_le_mono_r; lia).
    assert (Hpow : (2 ^ S m = 2 * 2 ^ m)%nat) by reflexivity.
    rewrite cx_state_S, amp_apply_CX by now rewrite length_cx_state.
    rewrite !Nat2Z.id.
    rewrite testbit_block by lia.
    replace (Nat.odd (2 * u + 1)) with true
      by (symmetry; apply Nat.odd_spec; now exists u).
    replace ((2 * u + 1) * 2 ^ i + (2 ^ S m - 1))%nat
      with (((2 * u + 1) * 2 ^ i + (2 ^ m - 1)) + 2 ^ m)%nat by lia.
    rewrite flip_bit_set.
    + apply IH; lia.
    + replace ((2 * u + 1) * 2 ^ i)%nat
        with ((2 * ((2 * u + 1) * 2 ^ (i - S m))) * 2 ^ m)%nat.
      * rewrite testbit_block by lia.
        apply Bool.not_true_is_false. intros Ho.
        apply Nat.odd_spec in Ho. destruct Ho as [z Hz]. lia.
      * replace i with ((i - S m) + S m)%nat at 2 by lia.
        rewrite Nat.pow_add_r, Hpow. lia.
Qed.

(** ** The state that is measured *)
Lemma run_measure_circuit (n : Z) (i : nat) (x : vector) :
  run (measure_circuit n (Z.of_nat i)) x
  = apply_gate (H (Z.of_nat i)) (cx_state i i x).
Proof.
  unfold run, measure_circuit, cx_state. cbn [qc_data].
  now rewrite fold_left_app.
Qed.

Section MeasuredAmplitudes.

Variables (n : Z) (i u : nat) (x : vector).

(** The two indices of block [u] whose low [i] bits are all one. *)
Let k0 : nat := (2 * u * 2 ^ i + (2 ^ i - 1))%nat.
Let k1 : nat := ((2 * u + 1) * 2 ^ i + (2 ^ i - 1))%nat.

Hypothesis in_range : (k1 < length x)%nat.

Lemma k1_k0 : k1 = (k0 + 2 ^ i)%nat.
Proof. unfold k0, k1. lia. Qed.

Lemma succ_k0 : ((2 * u + 1) * 2 ^ i = k0 + 1)%nat.
Proof. unfold k0. pose proof (Nat.pow_nonzero 2 i). lia. Qed.

Lemma testbit_k0 : Nat.testbit k0 i = false.
Proof.
  unfold k0. pose proof (Nat.pow_nonzero 2 i).
  rewrite testbit_block by lia.
  rewrite Nat.odd_mul. reflexivity.
Qed.

Lemma testbit_k1 : Nat.testbit k1 i = true.
Proof.
  unfold k1. pose proof (Nat.pow_nonzero 2 i).
  rewrite testbit_block by lia.
  apply Nat.odd_spec. now exists u.
Qed.

Lemma amp_measured_zero :
  amp (run (measure_circuit n (Z.of_nat i)) x) k0
  = Cscal (/ sqrt 2) (amp x k0 + amp x (k0 + 1)%nat)%C.
Proof.
  pose proof k1_k0 as Hk.
  rewrite run_measure_circuit, amp_apply_H
    by (rewrite length_cx_state; lia).
  rewrite Nat2Z.id, testbit_k0, (flip_bit_clear _ _ testbit_k0), <- Hk.
  rewrite cx_state_control_clear by (lia || apply testbit_k0).
  unfold k1. rewrite cx_state_control_set by (lia || exact in_range).
  now rewrite succ_k0.
Qed.

Lemma amp_measured_one :
  amp (run (measure_circuit n (Z.of_nat i)) x) k1
  = Cscal (/ sqrt 2) (amp x k0 - amp x (k0 + 1)%nat)%C.
Proof.
  pose proof k1_k0 as Hk.
  rewrite run_measure_circuit, amp_apply_H
    by (rewrite length_cx_state; lia).
  rewrite Nat2Z.id, testbit_k1. rewrite Hk at 1.
  rewrite (flip_bit_set _ _ testbit_k0).
  rewrite cx_state_control_clear by (lia || apply testbit_k0).
  unfold k1. rewrite cx_state_control_set by (lia || exact in_range).
  now rewrite succ_k0.
Qed.

End MeasuredAmplitudes.

Lemma expectation_claimed (p0 p1 : C) (j i : nat) (psi : vector) :
  length psi = (2 ^ (j + 1 + i))%nat ->
  expectation_value (claimed_term (diag [p0; p1]) j i) psi
  = Ok (Sigma (2 ^ j)
          (fun u =>
             (p0 * weight psi (2 * u * 2 ^ i + (2 ^ i - 1))%nat
              + p1 * weight psi ((2 * u + 1) * 2 ^ i + (2 ^ i - 1))%nat)%C)).
Proof.
  intros Hlen. rewrite claimed_term_diag, expectation_diag.
  - now rewrite wsum_claimed.
  - rewrite !length_dkron, !length_dpow. cbn [length].
    rewrite Hlen, !Nat.pow_add_r. simpl. lia.
Qed.

Lemma expectation_identity (n : nat) (psi : vector) :
  length psi = (2 ^ n)%nat ->
  expectation_value (tensor_power (from_label I_label) n) psi
  = Ok (Sigma (2 ^ n) (weight psi)).
Proof.
  intros Hlen. change (from_label I_label) with (diag [C1; C1]).
  rewrite tensor_power_diag, expectation_diag.
  - now rewrite wsum_dpow_id.
  - rewrite length_dpow. cbn [length]. exact Hlen.
Qed.

Lemma half_sqrt2 : (/ sqrt 2 * / sqrt 2 = / 2)%R.
Proof.
  assert (H2 : (sqrt 2 * sqrt 2 = 2)%R) by (apply sqrt_sqrt; lra).
  assert (Hn : (sqrt 2 <> 0)%R) by (intros E; rewrite E in H2; lra).
  rewrite <- Rinv_mult, H2. reflexivity.
Qed.

(** On real amplitudes the two weights of a block differ by twice the
    product of neighbouring entries. *)
Lemma weight_difference (a b : R) :
  ((Cconj (Cscal (/ sqrt 2) (RtoC a + RtoC b))
    * Cscal (/ sqrt 2) (RtoC a + RtoC b))
   - (Cconj (Cscal (/ sqrt 2) (RtoC a - RtoC b))
      * Cscal (/ sqrt 2) (RtoC a - RtoC b)))%C
  = RtoC (2 * a * b).
Proof.
  pose proof half_sqrt2 as Hs.
  set (s := (/ sqrt 2)%R) in *.
  apply C_eq; simpl.
  - transitivity ((s * s) * (4 * a * b))%R; [ring | rewrite Hs; field].
  - ring.
Qed.

(** ** Sums of reals *)

Lemma Rsum_app (xs ys : list R) : Rsum (xs ++ ys) = (Rsum xs + Rsum ys)%R.
Proof. induction xs as [|x xs IH]; simpl; [lra | rewrite IH; lra]. Qed.

Lemma RSigma_S (m : nat) (f : nat -> R) :
  RSigma (S m) f = (RSigma m f + f m)%R.
Proof. unfold RSigma. rewrite seq_S, map_app, Rsum_app. simpl. lra. Qed.

Lemma RSigma_ext (m : nat) (f g : nat -> R) :
  (forall k, (k < m)%nat -> f k = g k) -> RSigma m f = RSigma m g.
Proof.
  intros Hfg. unfold RSigma. f_equal. apply map_ext_in.
  intros k Hk. apply in_seq in Hk. apply Hfg. lia.
Qed.

Lemma RSigma_shift (m : nat) (f : nat -> R) :
  RSigma (S m) f = (f 0%nat + RSigma m (fun k => f (S k)))%R.
Proof.
  unfold RSigma. cbn [seq map Rsum fold_right].
  now rewrite <- seq_shift, map_map.
Qed.

Lemma RSigma_plus (m : nat) (f g : nat -> R) :
  RSigma m (fun k => f k + g k)%R = (RSigma m f + RSigma m g)%R.
Proof.
  induction m as [|m IH]; [unfold RSigma; simpl; lra|].
  rewrite !RSigma_S, IH. lra.
Qed.

Lemma RSigma_zero (m : nat) (f : nat -> R) :
  (forall k, (k < m)%nat -> f k = 0%R) -> RSigma m f = 0%R.
Proof.
  intros Hf. induction m as [|m IH]; [reflexivity|].
  rewrite RSigma_S, IH by (intros; apply Hf; lia).
  rewrite Hf by lia. lra.
Qed.

Lemma Sigma_RtoC (m : nat) (f : nat -> R) :
  Sigma m (fun k => RtoC (f k)) = RtoC (RSigma m f).
Proof.
  induction m as [|m IH]; [reflexivity|].
  rewrite Sigma_S, RSigma_S, IH. c_eq.
Qed.

(** ** Every index below [2^n - 1] is [u 0 1...1] for exactly one number
    [i] of trailing ones and one prefix [u]. *)

Lemma parity_split (m : nat) (f : nat -> R) :
  RSigma (2 * m + 1) f
  = (RSigma (m + 1) (fun u => f (2 * u)%nat)
     + RSigma m (fun v => f (2 * v + 1)%nat))%R.
Proof.
  induction m as [|m IH].
  - unfold RSigma. simpl. lra.
  - replace (2 * S m + 1)%nat with (S (S (2 * m + 1))) by lia.
    replace (S m + 1)%nat with (S (m + 1)) by lia.
    rewrite !RSigma_S, IH.
    replace (S (2 * m + 1)) with (2 * (m + 1))%nat by lia. lra.
Qed.

Lemma trailing_ones_reindex (n : nat) (f : nat -> R) :
  RSigma n (fun i =>
    RSigma (2 ^ (n - 1 - i)) (fun u => f (2 * u * 2 ^ i + (2 ^ i - 1))%nat))
  = RSigma (2 ^ n - 1) f.
Proof.
  revert f. induction n as [|n IH]; intros f; [reflexivity|].
  rewrite RSigma_shift.
  replace (2 ^ S n - 1)%nat with (2 * (2 ^ n - 1) + 1)%nat
    by (pose proof (Nat.pow_nonzero 2 n); simpl; lia).
  rewrite parity_split.
  replace (2 ^ n - 1 + 1)%nat with (2 ^ n)%nat
    by (pose proof (Nat.pow_nonzero 2 n); lia).
  f_equal.
  - replace (S n - 1 - 0)%nat with n by lia.
    apply RSigma_ext. intros u _. f_equal. simpl. lia.
  - rewrite <- (IH (fun v => f (2 * v + 1)%nat)).
    apply RSigma_ext. intros i Hi.
    replace (S n - 1 - S i)%nat with (n - 1 - i)%nat by lia.
    apply RSigma_ext. intros u _. f_equal.
    pose proof (Nat.pow_nonzero 2 i).
    replace (2 ^ S i)%nat with (2 * 2 ^ i)%nat by reflexivity. lia.
Qed.

(** ** The bilinear form of the tridiagonal Toeplitz matrix *)

Section Toeplitz.

Variables (main off : R) (a : nat -> R).

Lemma column_above (m : nat) :
  RSigma m (fun r => a r * toeplitzR main off r m * a m)%R
  = match m with
    | O => 0%R
    | S k => (a k * off * a m)%R
    end.
Proof.
  destruct m as [|k]; [reflexivity|].
  rewrite RSigma_S, RSigma_zero.
  - unfold toeplitzR.
    destruct (Nat.eqb_spec k (S k)); [lia|]. rewrite Nat.eqb_refl. simpl. lra.
  - intros r Hr. unfold toeplitzR.
    destruct (Nat.eqb_spec r (S k)); [lia|].
    destruct (Nat.eqb_spec (S r) (S k)); [lia|].
    destruct (Nat.eqb_spec r (S (S k))); [lia|]. simpl. lra.
Qed.

Lemma row_left (m : nat) :
  RSigma m (fun c => a m * toeplitzR main off m c * a c)%R
  = match m with
    | O => 0%R
    | S k => (a m * off * a k)%R
    end.
Proof.
  destruct m as [|k]; [reflexivity|].
  rewrite RSigma_S, RSigma_zero.
  - unfold toeplitzR.
    destruct (Nat.eqb_spec (S k) k); [lia|].
    destruct (Nat.eqb_spec (S (S k)) k); [lia|].
    rewrite Nat.eqb_refl. simpl. lra.
  - intros c Hc. unfold toeplitzR.
    destruct (Nat.eqb_spec (S k) c); [lia|].
    destruct (Nat.eqb_spec (S (S k)) c); [lia|].
    destruct (Nat.eqb_spec (S k) (S c)); [lia|]. simpl. lra.
Qed.

Lemma toeplitz_form (m : nat) :
  RSigma m (fun r => RSigma m (fun c => a r * toeplitzR main off r c * a c))%R
  = (main * RSigma m (fun k => a k * a k)
     + off * RSigma (m - 1) (fun k => 2 * a k * a (S k)))%R.
Proof.
  induction m as [|m IH]; [unfold RSigma; simpl; lra|].
  rewrite RSigma_S.
  rewrite (RSigma_ext m _
             (fun r => RSigma m (fun c => a r * toeplitzR main off r c * a c)
                       + a r * toeplitzR main off r m * a m)%R)
    by (intros r _; apply RSigma_S).
  rewrite RSigma_plus, IH, column_above, !RSigma_S, row_left.
  replace (toeplitzR main off m m) with main
    by (unfold toeplitzR; now rewrite Nat.eqb_refl).
  destruct m as [|k].
  - unfold RSigma. simpl. ring.
  - replace (S (S k) - 1)%nat with (S k) by lia.
    replace (S k - 1)%nat with k by lia.
    rewrite !RSigma_S. ring.
Qed.

End Toeplitz.

Lemma bilinear_form_real (self : MatrixFunctional) (xr : list R) :
  bilinear_form self (map RtoC xr)
  = RtoC (main_diag self * RSigma (length xr) (fun k => nth k xr 0 * nth k xr 0)
          + off_diag self
            * RSigma (length xr - 1)
                (fun k => 2 * nth k xr 0 * nth (S k) xr 0))%R.
Proof.
  rewrite <- toeplitz_form. unfold bilinear_form. rewrite length_map.
  fold (Sigma (length xr)
          (fun r => Csum (map (fun c => (amp (map RtoC xr) r
                                         * toeplitz_entry self r c
                                         * amp (map RtoC xr) c)%C)
                              (seq 0 (length xr))))).
  rewrite <- Sigma_RtoC. apply Sigma_ext. intros r _.
  fold (Sigma (length xr)
          (fun c => (amp (map RtoC xr) r * toeplitz_entry self r c
                     * amp (map RtoC xr) c)%C)).
  rewrite <- Sigma_RtoC. apply Sigma_ext. intros c _.
  unfold amp. rewrite !nth_map_RtoC. unfold toeplitz_entry, toeplitzR.
  destruct (Nat.eqb r c); [c_eq|].
  destruct (Nat.eqb (S r) c || Nat.eqb r (S c)); c_eq.
Qed.

(** ** The estimation with the observables of the specification *)

Section Repaired.

Variable n : nat.
Variable x : vector.
Hypothesis x_length : length x = (2 ^ n)%nat.

Lemma block_in_range (i u : nat) :
  (i < n)%nat -> (u < 2 ^ (n - 1 - i))%nat ->
  ((2 * u + 1) * 2 ^ i + (2 ^ i - 1) < length x)%nat.
Proof.
  intros Hi Hu. rewrite x_length.
  assert (Hpow : (2 ^ n = 2 ^ (n - 1 - i) * (2 * 2 ^ i))%nat).
  { replace n with ((n - 1 - i) + S i)%nat at 1 by lia.
    now rewrite Nat.pow_add_r. }
  pose proof (Nat.pow_nonzero 2 i).
  assert (H1 : ((u + 1) * (2 * 2 ^ i) <= 2 ^ (n - 1 - i) * (2 * 2 ^ i))%nat)
    by (apply Nat.mul_le_mono_r; lia).
  lia.
Qed.

Lemma expectation_at_pair (p0 p1 : C) (ops : list Operator)
  (qcs : list QuantumCircuit) (i : nat) (idx : Z) :
  (i < n)%nat ->
  getitem ops idx
  = Ok (claimed_term (diag [p0; p1])
          (Z.to_nat (Z.of_nat n - Z.of_nat i - 1)) (Z.to_nat (Z.of_nat i))) ->
  getitem qcs idx = Ok (measure_circuit (Z.of_nat n) (Z.of_nat i)) ->
  expectation_at ops qcs x idx = Ok (measured p0 p1 n i x).
Proof.
  intros Hi Eop Eqc. unfold expectation_at. rewrite Eop, Eqc. cbn [bind].
  replace (Z.to_nat (Z.of_nat n - Z.of_nat i - 1)) with (n - 1 - i)%nat by lia.
  rewrite Nat2Z.id. rewrite expectation_claimed; [reflexivity|].
  rewrite length_run, x_length. f_equal. lia.
Qed.

End Repaired.

Lemma flat_map_map {X Y A : Type} (g : Y -> list A) (f : X -> Y) (xs : list X) :
  flat_map g (map f xs) = flat_map (fun x => g (f x)) xs.
Proof. induction xs as [|x xs IH]; simpl; [reflexivity | now rewrite IH]. Qed.

Lemma Sigma_minus (m : nat) (f g : nat -> C) :
  (Sigma m f - Sigma m g)%C = Sigma m (fun k => (f k - g k)%C).
Proof.
  induction m as [|m IH]; [unfold Sigma; simpl; c_eq|].
  rewrite !Sigma_S, <- IH. c_eq.
Qed.

Lemma weight_real (xr : list R) (k : nat) :
  weight (map RtoC xr) k = RtoC (nth k xr 0 * nth k xr 0)%R.
Proof. unfold weight, amp. rewrite nth_map_RtoC. c_eq. Qed.

Lemma state_values_claimed (n : nat) (x : vector) (qcs : list QuantumCircuit) :
  length x = (2 ^ n)%nat ->
  getitem qcs 0 = Ok (mkQC (Z.of_nat n) []) ->
  (forall i, (0 <= i < Z.of_nat n)%Z ->
     getitem qcs (2 * i + 1) = Ok (measure_circuit (Z.of_nat n) i)
     /\ getitem qcs (2 * i + 2) = Ok (measure_circuit (Z.of_nat n) i)) ->
  state_values (claimed_observables (Z.of_nat n)) qcs x
  = Ok (measured_values n x).
Proof.
  intros Hx Hq0 Hq.
  destruct (@getitem_pairs _
              (tensor_power (from_label I_label) (Z.to_nat (Z.of_nat n)))
              (fun i => claimed_term zero_op
                          (Z.to_nat (Z.of_nat n - i - 1)) (Z.to_nat i))
              (fun i => claimed_term one_op
                          (Z.to_nat (Z.of_nat n - i - 1)) (Z.to_nat i))
              (Z.of_nat n)) as [Hlen [Ho0 Ho]]; [lia|].
  fold (claimed_observables (Z.of_nat n)) in Hlen, Ho0, Ho.
  unfold state_values.
  unfold expectation_at at 1. rewrite Ho0, Hq0. cbn [bind].
  rewrite Nat2Z.id.
  change (run (mkQC (Z.of_nat n) []) x) with x.
  rewrite expectation_identity by exact Hx. cbn [bind].
  assert (Hl : len (claimed_observables (Z.of_nat n))
               = Z.of_nat (2 * n + 1)) by lia.
  rewrite Hl, range3_odd_indices.
  replace ((2 * n + 1) / 2)%nat with n
    by (replace (2 * n + 1)%nat with (1 + n * 2)%nat by lia;
        now rewrite Nat.div_add by lia).
  rewrite (for_each_append _ _
             (fun idx => [measured C1 C0 n (Z.to_nat ((idx - 1) / 2)) x;
                          measured C0 C1 n (Z.to_nat ((idx - 1) / 2)) x])).
  - unfold measured_values. cbn [app]. do 2 f_equal.
    rewrite flat_map_map. apply flat_map_ext. intros k.
    replace (Z.to_nat ((2 * Z.of_nat k + 1 - 1) / 2)) with k; [reflexivity|].
    replace (2 * Z.of_nat k + 1 - 1)%Z with (Z.of_nat k * 2)%Z by lia.
    rewrite Z.div_mul by lia. lia.
  - intros idx acc Hidx. apply in_map_iff in Hidx.
    destruct Hidx as [k [<- Hk]]. apply in_seq in Hk.
    replace (Z.to_nat ((2 * Z.of_nat k + 1 - 1) / 2)) with k.
    2:{ replace (2 * Z.of_nat k + 1 - 1)%Z with (Z.of_nat k * 2)%Z by lia.
        rewrite Z.div_mul by lia. lia. }
    destruct (Ho (Z.of_nat k)) as [Eo1 Eo2]; [lia|].
    destruct (Hq (Z.of_nat k)) as [Eq1 Eq2]; [lia|].
    rewrite zero_op_projector in Eo1. rewrite one_op_projector in Eo2.
    change ProjectorZero with (diag [C1; C0]) in Eo1.
    change ProjectorOne with (diag [C0; C1]) in Eo2.
    rewrite (@expectation_at_pair n x Hx C1 C0 _ _ k _ ltac:(lia) Eo1 Eq1).
    cbn [bind].
    replace (2 * Z.of_nat k + 1 + 1)%Z with (2 * Z.of_nat k + 2)%Z by lia.
    rewrite (@expectation_at_pair n x Hx C0 C1 _ _ k _ ltac:(lia) Eo2 Eq2).
    reflexivity.
Qed.

Lemma length_measured_values (n : nat) (x : vector) :
  length (measured_values n x) = (2 * n + 1)%nat.
Proof.
  unfold measured_values. cbn [length].
  rewrite length_flat_map_pair, length_seq. lia.
Qed.

(** On a real vector, the two values of qubit [i] differ by twice the sum
    of the products [x[k] * x[k+1]] over the indices [k] with exactly [i]
    trailing ones. *)
Lemma measured_difference (n i : nat) (xr : list R) :
  length xr = (2 ^ n)%nat -> (i < n)%nat ->
  (measured C1 C0 n i (map RtoC xr) - measured C0 C1 n i (map RtoC xr))%C
  = RtoC (RSigma (2 ^ (n - 1 - i))
            (fun u => 2 * nth (2 * u * 2 ^ i + (2 ^ i - 1)) xr 0
                      * nth (2 * u * 2 ^ i + (2 ^ i - 1) + 1) xr 0)%R).
Proof.
  intros Hx Hi. unfold measured.
  rewrite Sigma_minus, <- Sigma_RtoC. apply Sigma_ext. intros u Hu.
  assert (Hr : ((2 * u + 1) * 2 ^ i + (2 ^ i - 1)
                < length (map RtoC xr))%nat).
  { apply (@block_in_range n); [now rewrite length_map | assumption..]. }
  rewrite <- weight_difference. unfold weight.
  rewrite (@amp_measured_zero (Z.of_nat n) i u _ Hr).
  rewrite (@amp_measured_one (Z.of_nat n) i u _ Hr).
  unfold amp. rewrite !nth_map_RtoC.
  set (a := nth (2 * u * 2 ^ i + (2 ^ i - 1)) xr 0%R).
  set (b := nth (2 * u * 2 ^ i + (2 ^ i - 1) + 1) xr 0%R).
  set (s := (/ sqrt 2)%R). c_eq.
Qed.

Lemma combination_measured (self : MatrixFunctional) (n : nat) (xr : list R) :
  length xr = (2 ^ n)%nat ->
  Re (combination self (measured_values n (map RtoC xr)) 1 n)
  = (main_diag self * RSigma (2 ^ n) (fun k => nth k xr 0 * nth k xr 0)
     + off_diag self
       * RSigma (2 ^ n - 1) (fun k => 2 * nth k xr 0 * nth (S k) xr 0))%R.
Proof.
  intros Hx. unfold combination. cbn [Re Cplus Cscal].
  assert (H1 : (1 ^ 2 = 1)%R) by (simpl; lra).
  rewrite H1. f_equal.
  - f_equal. unfold item, measured_values. cbn [nth Re Cdiv_real].
    rewrite (Sigma_ext _ _ (fun k => RtoC (nth k xr 0 * nth k xr 0)%R))
      by (intros; apply weight_real).
    rewrite Sigma_RtoC. cbn [Re RtoC]. lra.
  - f_equal.
    rewrite <- (trailing_ones_reindex n
                  (fun k => 2 * nth k xr 0 * nth (S k) xr 0)%R).
    fold (Sigma n (pair_term (measured_values n (map RtoC xr)) 1)).
    rewrite (Sigma_ext _ _
               (fun i => RtoC (RSigma (2 ^ (n - 1 - i))
                  (fun u => 2 * nth (2 * u * 2 ^ i + (2 ^ i - 1)) xr 0
                            * nth (S (2 * u * 2 ^ i + (2 ^ i - 1))) xr 0)%R))).
    + now rewrite Sigma_RtoC.
    + intros i Hi. unfold pair_term, item, measured_values.
      replace (2 * i + 1)%nat with (S (2 * i)) by lia.
      replace (2 * i + 2)%nat with (S (2 * i + 1)) by lia.
      cbn [nth].
      destruct (@nth_flat_map_pair _ _
                  (fun i => measured C1 C0 n i (map RtoC xr))
                  (fun i => measured C0 C1 n i (map RtoC xr))
                  (seq 0 n) i 0%nat C0) as [E1 E2];
        [now rewrite length_seq|].
      rewrite E1, E2, seq_nth by assumption. cbn [Nat.add].
      rewrite measured_difference by assumption.
      rewrite H1. apply C_eq; cbn [Re Im Cdiv_real RtoC]; [|lra].
      unfold Rdiv. rewrite Rinv_1, Rmult_1_r.
      apply RSigma_ext. intros u _.
      now replace (2 * u * 2 ^ i + (2 ^ i - 1) + 1)%nat
        with (S (2 * u * 2 ^ i + (2 ^ i - 1))) by lia.
Qed.

Lemma estimate_with_claimed (self : MatrixFunctional) (n : nat)
  (xr : list R) :
  (1 <= n)%nat -> length xr = (2 ^ n)%nat ->
  estimate_with self (claimed_observables (Z.of_nat n)) (map RtoC xr)
    (Z.of_nat n)
  = Ok (main_diag self * RSigma (2 ^ n) (fun k => nth k xr 0 * nth k xr 0)
        + off_diag self
          * RSigma (2 ^ n - 1) (fun k => 2 * nth k xr 0 * nth (S k) xr 0))%R.
Proof.
  intros Hn Hx. unfold estimate_with.
  destruct (@observable_circuit_entries (Z.of_nat n))
    as [qcs [-> [_ [_ [Hq0 Hq]]]]]; [lia|].
  cbn [bind].
  rewrite (@state_values_claimed n (map RtoC xr) qcs).
  - cbn [bind].
    rewrite (@post_processing_odd self _ (Z.of_nat n) 1 n)
      by (apply length_measured_values || lra).
    now rewrite combination_measured.
  - now rewrite length_map.
  - exact Hq0.
  - intros i Hi. destruct (Hq i Hi) as [E1 [E2 _]]. now split.
Qed.

(** X12: with the circuits of observable_circuit(n), the identity and the
    projector products with n - 1 - i identities, the projector and i
    one-projectors as observables, and post_processing with scaling 1, the
    estimation returns the value of evaluate_classically, for every n >= 1
    and every real vector of length 2^n, in exact arithmetic. *)
Theorem round_trip_with_claimed_observables (self : MatrixFunctional)
  (n : Z) (xr : list R) :
  (1 <= n)%Z -> length xr = (2 ^ Z.to_nat n)%nat ->
  exists v : R,
    estimate_with self (claimed_observables n) (map RtoC xr) n = Ok v
    /\ evaluate_classically self (SolArray (map RtoC xr)) = Ok (RtoC v).
Proof.
  intros Hn Hx.
  pose proof (@estimate_with_claimed self (Z.to_nat n) xr) as E.
  rewrite Z2Nat.id in E by lia.
  eexists. split; [apply E; [lia | exact Hx]|].
  rewrite evaluate_classically_array.
  - rewrite bilinear_form_real, Hx. reflexivity.
  - rewrite length_map, Hx. pose proof (Nat.pow_nonzero 2 (Z.to_nat n)). lia.
Qed.

(** C2 fails on the code.  With n = 2, x = [1, 0, 0, 0], main_diag = 1 and
    off_diag = 0 the classical value is 1, and the estimation with the
    observables of the specification gives 1, but the estimation with
    observable(2) has no value: the observable at index 3 acts on three
    qubits and cannot be evaluated on a two-qubit state. *)
Theorem round_trip_breaks_on_basis_state :
  evaluate_classically (mkMF 1 0) (SolArray [C1; C0; C0; C0]) = Ok C1
  /\ estimate_with (mkMF 1 0) (claimed_observables 2) [C1; C0; C0; C0] 2
     = Ok 1%R
  /\ estimate (mkMF 1 0) [C1; C0; C0; C0] 2 = Raise QiskitError
  /\ exists ops,
       observable 2 = Ok ops
       /\ getitem ops 3 = Ok (built_term zero_op 0 1)
       /\ acts_on 3 (built_term zero_op 0 1).
Proof.
  split; [|split; [|split]].
  - rewrite evaluate_classically_array by (simpl; lia).
    f_equal. unfold bilinear_form, toeplitz_entry, amp. simpl. c_eq.
  - pose proof (estimate_with_claimed (mkMF 1 0) 2 [1; 0; 0; 0]%R) as E.
    change (estimate_with (mkMF 1 0) (claimed_observables 2)
              [C1; C0; C0; C0] 2) with
      (estimate_with (mkMF 1 0) (claimed_observables (Z.of_nat 2))
         (map RtoC [1; 0; 0; 0]%R) (Z.of_nat 2)).
    rewrite E by (lia || reflexivity).
    f_equal. unfold RSigma. simpl. lra.
  - apply estimate_fails; [lia | reflexivity].
  - destruct (@observable_entries 2) as [ops [E [_ [_ Hi]]]]; [lia|].
    exists ops. split; [exact E|].
    destruct (Hi 1%Z) as [E1 _]; [lia|]. split; [exact E1|].
    apply (@built_term_acts_on zero_op 0 1), acts_on_zero_op.
Qed.

(** * Further properties of the code *)

(** ** post_processing on any list *)

(** X1: what post_processing does on a list.  With a non-zero scaling it
    returns a value exactly when the length is odd, the real part of the
    combination, and raises IndexError exactly when the length is even.
    On the empty list and on a list of length 2 it raises IndexError
    whatever the scaling, before any division. *)
Theorem post_processing_outcome (self : MatrixFunctional)
  (solution : list C) (num_qubits : Z) (scaling : R) :
  (Nat.Odd (length solution) -> scaling <> 0%R ->
   post_processing self (PyList solution) num_qubits scaling
   = Ok (Re (combination self solution scaling (length solution / 2))))
  /\ (length solution = 0%nat \/ length solution = 2%nat
      \/ (Nat.Even (length solution) /\ scaling <> 0%R) ->
      post_processing self (PyList solution) num_qubits scaling
      = Raise IndexError)
  /\ (scaling <> 0%R ->
      ((exists v, post_processing self (PyList solution) num_qubits scaling
                  = Ok v) <-> Nat.Odd (length solution))
      /\ (post_processing self (PyList solution) num_qubits scaling
          = Raise IndexError <-> Nat.Even (length solution))).
Proof.
  assert (Hodd : Nat.Odd (length solution) -> scaling <> 0%R ->
            post_processing self (PyList solution) num_qubits scaling
            = Ok (Re (combination self solution scaling
                        (length solution / 2)))).
  { intros [m Hm] Hs.
    apply post_processing_odd; [|exact Hs].
    rewrite Hm at 1. f_equal.
    rewrite Hm. replace (2 * m + 1)%nat with (1 + m * 2)%nat by lia.
    now rewrite Nat.div_add by lia. }
  assert (Heven : length solution = 0%nat \/ length solution = 2%nat
                  \/ (Nat.Even (length solution) /\ scaling <> 0%R) ->
            post_processing self (PyList solution) num_qubits scaling
            = Raise IndexError).
  { intros [H0|[H2|[[m Hm] Hs]]].
    - destruct solution; [reflexivity | discriminate].
    - destruct solution as [|a [|b [|c l]]]; try discriminate.
      unfold post_processing, off_val_loop, len. rewrite range3_odd_indices.
      change (length [a; b] / 2)%nat with 1%nat. cbn [seq map for_each].
      rewrite (getitem_in_range [a; b] C0) by (unfold len; simpl; lia).
      cbn [bind]. rewrite getitem_past_end by (unfold len; simpl; lia).
      reflexivity.
    - destruct m as [|m].
      + destruct solution; [reflexivity | simpl in Hm; lia].
      + unfold post_processing.
        rewrite (@off_val_loop_even solution scaling m)
          by (lia || (apply pow_nonzero; assumption)).
        reflexivity. }
  split; [exact Hodd|]. split; [exact Heven|].
  intros Hs. split; split.
  - intros [v Hv].
    destruct (Nat.Even_or_Odd (length solution)) as [He|Ho]; [|exact Ho].
    rewrite Heven in Hv by (right; right; now split). discriminate.
  - intros Ho. eexists. apply Hodd; assumption.
  - intros Hr.
    destruct (Nat.Even_or_Odd (length solution)) as [He|Ho]; [exact He|].
    rewrite Hodd in Hr by assumption. discriminate.
  - intros He. apply Heven. right; right. now split.
Qed.

Lemma item_prescaled (solution : list C) (scaling : R) (k : nat) :
  item (prescaled solution scaling) k
  = Cdiv_real (item solution k) (scaling ^ 2).
Proof.
  unfold item, prescaled.
  replace C0 with (Cdiv_real C0 (scaling ^ 2)) at 1
    by (apply C_eq; simpl; unfold Rdiv; ring).
  apply (map_nth (fun z => Cdiv_real z (scaling ^ 2))).
Qed.

Lemma pair_term_prescaled (solution : list C) (scaling : R) (k : nat) :
  pair_term (prescaled solution scaling) 1 k = pair_term solution scaling k.
Proof.
  unfold pair_term. rewrite !item_prescaled.
  apply C_eq; simpl; unfold Rdiv; rewrite !Rmult_1_r, Rinv_1; ring.
Qed.

Lemma combination_prescaled (self : MatrixFunctional) (solution : list C)
  (scaling : R) (n : nat) :
  combination self (prescaled solution scaling) 1 n
  = combination self solution scaling n.
Proof.
  unfold combination. rewrite item_prescaled. f_equal.
  - f_equal. apply C_eq; simpl; unfold Rdiv; rewrite !Rmult_1_r, Rinv_1; ring.
  - f_equal. f_equal. apply map_ext. intros k. apply pair_term_prescaled.
Qed.

Lemma Re_pair_sum_scaling (solution : list C) (scaling : R) (ks : list nat) :
  Re (Csum (map (pair_term solution scaling) ks))
  = (Re (Csum (map (pair_term solution 1) ks)) / scaling ^ 2)%R.
Proof.
  induction ks as [|k ks IH]; simpl.
  - unfold Rdiv. ring.
  - simpl in IH. rewrite IH. unfold Rdiv. rewrite !Rmult_1_r, Rinv_1. ring.
Qed.

Lemma Re_combination_scaling (self : MatrixFunctional) (solution : list C)
  (scaling : R) (n : nat) :
  Re (combination self solution scaling n)
  = (Re (combination self solution 1 n) / scaling ^ 2)%R.
Proof.
  unfold combination. cbn [Re Cplus Cscal Cdiv_real].
  rewrite (Re_pair_sum_scaling solution scaling).
  unfold Rdiv. simpl. rewrite !Rmult_1_r, Rinv_1. ring.
Qed.

(** X2: scaling law.  For a non-zero scaling s, post_processing with
    scaling s gives the same outcome as post_processing with scaling 1 on
    the results divided by s^2; on a list of odd length the value is the
    value for scaling 1 divided by s^2. *)
Theorem post_processing_scaling (self : MatrixFunctional)
  (solution : list C) (num_qubits : Z) (scaling : R) :
  scaling <> 0%R ->
  post_processing self (PyList solution) num_qubits scaling
  = post_processing self (PyList (prescaled solution scaling)) num_qubits 1
  /\ (Nat.Odd (length solution) ->
      exists v,
        post_processing self (PyList solution) num_qubits 1 = Ok v
        /\ post_processing self (PyList solution) num_qubits scaling
           = Ok (v / scaling ^ 2)%R).
Proof.
  intros Hs.
  assert (H1 : 1%R <> 0%R) by lra.
  assert (Hlen : length (prescaled solution scaling) = length solution)
    by apply length_map.
  split.
  - destruct (Nat.Even_or_Odd (length solution)) as [[m Hm]|[m Hm]].
    + destruct m as [|m].
      * destruct solution; [reflexivity | simpl in Hm; lia].
      * unfold post_processing.
        rewrite (@off_val_loop_even solution scaling m)
          by (lia || (apply pow_nonzero; assumption)).
        rewrite (@off_val_loop_even (prescaled solution scaling) 1 m)
          by (lia || (apply pow_nonzero; assumption)).
        reflexivity.
    + rewrite (@post_processing_odd self solution num_qubits scaling m Hm Hs).
      rewrite (@post_processing_odd self (prescaled solution scaling)
                 num_qubits 1 m) by (lia || assumption).
      now rewrite combination_prescaled.
  - intros [m Hm]. eexists. split.
    + apply (@post_processing_odd self solution num_qubits 1 m Hm H1).
    + rewrite (@post_processing_odd self solution num_qubits scaling m Hm Hs).
      now rewrite Re_combination_scaling.
Qed.

(** Sums of results. *)

Lemma item_map2_Cplus (a b : list C) (k : nat) :
  length a = length b ->
  item (map2 Cplus a b) k = (item a k + item b k)%C.
Proof.
  unfold item. revert b k.
  induction a as [|x a IH]; intros [|y b] k Hlen; simpl in Hlen;
    try discriminate.
  - destruct k; simpl; now rewrite Cplus_0_l.
  - destruct k as [|k]; [reflexivity|]. simpl. apply IH. lia.
Qed.

Lemma length_map2 {A B D : Type} (f : A -> B -> D) (xs : list A)
  (ys : list B) :
  length xs = length ys -> length (map2 f xs ys) = length xs.
Proof.
  revert ys. induction xs as [|x xs IH]; intros [|y ys] Hlen;
    simpl in *; try discriminate; [reflexivity|].
  f_equal. apply IH. lia.
Qed.

Lemma combination_additive (self : MatrixFunctional) (a b : list C)
  (scaling : R) (n : nat) :
  length a = length b ->
  combination self (map2 Cplus a b) scaling n
  = (combination self a scaling n + combination self b scaling n)%C.
Proof.
  intros Hlen. unfold combination. rewrite item_map2_Cplus by assumption.
  assert (Hsum : Csum (map (pair_term (map2 Cplus a b) scaling) (seq 0 n))
                 = (Csum (map (pair_term a scaling) (seq 0 n))
                    + Csum (map (pair_term b scaling) (seq 0 n)))%C).
  { induction (seq 0 n) as [|k ks IH]; simpl; [now rewrite Cplus_0_l|].
    simpl in IH. rewrite IH. unfold pair_term.
    rewrite !item_map2_Cplus by assumption.
    apply C_eq; simpl; unfold Rdiv; ring. }
  rewrite Hsum. apply C_eq; simpl; unfold Rdiv; ring.
Qed.

(** X3: post_processing is additive in the results: on two lists of the
    same odd length and a non-zero scaling, the value of the elementwise sum
    is the sum of the two values. *)
Theorem post_processing_additive (self : MatrixFunctional) (a b : list C)
  (num_qubits : Z) (scaling : R) :
  length a = length b -> Nat.Odd (length a) -> scaling <> 0%R ->
  exists va vb,
    post_processing self (PyList a) num_qubits scaling = Ok va
    /\ post_processing self (PyList b) num_qubits scaling = Ok vb
    /\ post_processing self (PyList (map2 Cplus a b)) num_qubits scaling
       = Ok (va + vb)%R.
Proof.
  intros Hlen [m Hm] Hs. do 2 eexists. split; [|split].
  - apply (@post_processing_odd self a num_qubits scaling m Hm Hs).
  - apply (@post_processing_odd self b num_qubits scaling m); [lia | exact Hs].
  - rewrite (@post_processing_odd self (map2 Cplus a b) num_qubits scaling m)
      by (rewrite ?length_map2; assumption || lia).
    now rewrite combination_additive.
Qed.

(** ** evaluate_classically on real vectors and circuits *)

Lemma RSigma_scal (m : nat) (a : R) (f : nat -> R) :
  RSigma m (fun k => a * f k)%R = (a * RSigma m f)%R.
Proof.
  induction m as [|m IH]; [unfold RSigma; simpl; lra|].
  rewrite !RSigma_S, IH. lra.
Qed.

(** X4: on a real vector of length N >= 1, evaluate_classically returns
    main_diag * sum of x[k]^2 + 2 * off_diag * sum over k < N - 1 of
    x[k] * x[k+1]; for N = 1 this is main_diag * x[0]^2. *)
Theorem evaluate_classically_closed_form (self : MatrixFunctional)
  (xr : list R) :
  (1 <= length xr)%nat ->
  evaluate_classically self (SolArray (map RtoC xr))
  = Ok (RtoC (main_diag self
              * RSigma (length xr) (fun k => nth k xr 0 * nth k xr 0)
              + 2 * off_diag self
                * RSigma (length xr - 1)
                    (fun k => nth k xr 0 * nth (S k) xr 0))%R).
Proof.
  intros Hlen.
  rewrite evaluate_classically_array by now rewrite length_map.
  rewrite bilinear_form_real. do 2 f_equal. f_equal.
  rewrite (Rmult_comm 2), Rmult_assoc. f_equal.
  rewrite <- RSigma_scal. apply RSigma_ext. intros k _. ring.
Qed.

(** Rescaling the vector. *)

Lemma amp_scaled (c : C) (x : vector) (k : nat) :
  amp (map (Cmult c) x) k = (c * amp x k)%C.
Proof.
  unfold amp. rewrite <- (Cmult_0_r c) at 1. apply (map_nth (Cmult c)).
Qed.

Lemma bilinear_form_scaled (self : MatrixFunctional) (c : C) (x : vector) :
  bilinear_form self (map (Cmult c) x)
  = (c * c * bilinear_form self x)%C.
Proof.
  unfold bilinear_form. rewrite length_map, Csum_scal, map_map.
  f_equal. apply map_ext. intros r.
  rewrite Csum_scal, map_map. f_equal. apply map_ext. intros k.
  rewrite !amp_scaled. c_eq.
Qed.

(** X5: evaluate_classically is homogeneous of degree two without
    conjugation: multiplying the vector by a complex number c multiplies the
    value by c * c. *)
Theorem evaluate_classically_homogeneous (self : MatrixFunctional) (c : C)
  (x : vector) :
  (1 <= length x)%nat ->
  exists v,
    evaluate_classically self (SolArray x) = Ok v
    /\ evaluate_classically self (SolArray (map (Cmult c) x))
       = Ok (c * c * v)%C.
Proof.
  intros Hlen. exists (bilinear_form self x). split.
  - now apply evaluate_classically_array.
  - rewrite evaluate_classically_array by now rewrite length_map.
    now rewrite bilinear_form_scaled.
Qed.

(** A circuit without gates prepares the all-zero basis state. *)



(** The products of neighbours are dominated by the squares. *)
Lemma neighbour_products_le (a : nat -> R) (m : nat) :
  (RSigma m (fun k => 2 * (a k * a (S k)))
   <= 2 * RSigma m (fun k => a k * a k) + a m * a m)%R
  /\ (- RSigma m (fun k => 2 * (a k * a (S k)))
      <= 2 * RSigma m (fun k => a k * a k) + a m * a m)%R.
Proof.
  induction m as [|m [IH1 IH2]].
  - pose proof (Rle_0_sqr (a 0%nat)) as H0. unfold Rsqr in H0.
    unfold RSigma. simpl. split; lra.
  - pose proof (Rle_0_sqr (a m - a (S m))) as Hm. unfold Rsqr in Hm.
    pose proof (Rle_0_sqr (a m + a (S m))) as Hp. unfold Rsqr in Hp.
    rewrite !RSigma_S. split; lra.
Qed.

(** X13: on a real vector of length >= 1 the value of
    evaluate_classically differs from main_diag * |x|^2 by at most
    2 * |off_diag| * |x|^2, where |x|^2 is the sum of the squares. *)
Theorem evaluate_classically_bound (self : MatrixFunctional) (xr : list R) :
  (1 <= length xr)%nat ->
  exists v,
    evaluate_classically self (SolArray (map RtoC xr)) = Ok (RtoC v)
    /\ (Rabs (v - main_diag self
                  * RSigma (length xr) (fun k => nth k xr 0 * nth k xr 0))
        <= 2 * Rabs (off_diag self)
           * RSigma (length xr) (fun k => nth k xr 0 * nth k xr 0))%R.
Proof.
  intros Hlen. eexists. split.
  - rewrite evaluate_classically_array by now rewrite length_map.
    apply f_equal. apply bilinear_form_real.
  - set (a := fun k => nth k xr 0%R).
    set (S2 := RSigma (length xr) (fun k => nth k xr 0 * nth k xr 0)%R).
    set (T := RSigma (length xr - 1)
                (fun k => 2 * nth k xr 0 * nth (S k) xr 0)%R).
    replace (main_diag self * S2 + off_diag self * T - main_diag self * S2)%R
      with (off_diag self * T)%R by ring.
    rewrite Rabs_mult.
    assert (HT : (Rabs T <= 2 * S2)%R).
    { destruct (neighbour_products_le a (length xr - 1)) as [H1 H2].
      assert (ET : T = RSigma (length xr - 1) (fun k => 2 * (a k * a (S k)))%R).
      { apply RSigma_ext. intros k _. unfold a. ring. }
      assert (ES : S2 = (RSigma (length xr - 1) (fun k => a k * a k)
                         + a (length xr - 1)%nat * a (length xr - 1)%nat)%R).
      { unfold S2. replace (length xr) with (S (length xr - 1)) at 1 by lia.
        now rewrite RSigma_S. }
      assert (Hpos : (0 <= RSigma (length xr - 1) (fun k => a k * a k))%R).
      { generalize (length xr - 1)%nat. intros m.
        induction m as [|m IH]; [unfold RSigma; simpl; lra|].
        pose proof (Rle_0_sqr (a m)) as Hm. unfold Rsqr in Hm.
        rewrite RSigma_S. lra. }
      rewrite <- ET in H1, H2.
      apply Rabs_le. nra. }
    pose proof (Rabs_pos (off_diag self)). nra.
Qed.

(** ** The lists that the builders return *)

(** X7: for n >= 0, observable_circuit(n) returns 2n+1 circuits on n
    qubits in which every Hadamard acts on a qubit in [0, n) and every CNOT
    has its target strictly below its control, both in [0, n). *)
Theorem observable_circuit_well_formed (n : Z) :
  (0 <= n)%Z ->
  exists qcs,
    observable_circuit n = Ok qcs
    /\ len qcs = (2 * n + 1)%Z
    /\ Forall (fun qc => qc_num_qubits qc = n
                         /\ Forall (gate_ok n) (qc_data qc)) qcs.
Proof.
  intros Hn. eexists. split; [apply observable_circuit_built; exact Hn|].
  destruct (@getitem_pairs _ (mkQC n []) (measure_circuit n)
              (measure_circuit n) n) as [Hlen _]; [lia|].
  split; [exact Hlen|].
  constructor; [split; [reflexivity | constructor]|].
  apply Forall_forall. intros qc Hqc. apply in_flat_map in Hqc.
  destruct Hqc as [i [Hi Hqc]]. apply in_range in Hi.
  assert (Hmc : qc_num_qubits (measure_circuit n i) = n
                /\ Forall (gate_ok n) (qc_data (measure_circuit n i))).
  { split; [reflexivity|]. unfold measure_circuit. cbn [qc_data].
    apply Forall_app. split.
    - apply Forall_forall. intros g Hg. apply in_map_iff in Hg.
      destruct Hg as [j [<- Hj]]. apply in_range in Hj. simpl. lia.
    - constructor; [simpl; lia | constructor]. }
  destruct Hqc as [<-|[<-|[]]]; exact Hmc.
Qed.

(** X8: for n >= 1, observable(n) returns 2n+1 operators; those at the
    indices 0 .. 2n-2 act on n qubits, and the last two, at 2n-1 and 2n, act
    on n+1 qubits. *)
Theorem observable_structure (n : Z) :
  (1 <= n)%Z ->
  exists ops,
    observable n = Ok ops
    /\ len ops = (2 * n + 1)%Z
    /\ (forall k, (0 <= k < 2 * n - 1)%Z ->
          exists op, getitem ops k = Ok op /\ acts_on (Z.to_nat n) op)
    /\ (forall k, (2 * n - 1 <= k <= 2 * n)%Z ->
          exists op, getitem ops k = Ok op /\ acts_on (Z.to_nat n + 1) op).
Proof.
  intros Hn.
  destruct (@observable_entries n Hn) as [ops [E [Hlen [H0 Hpairs]]]].
  exists ops. split; [exact E|]. split; [exact Hlen|]. split.
  - intros k Hk.
    destruct (Z.eq_dec k 0) as [->|Hk0].
    { eexists. split; [exact H0|]. apply acts_on_tensor_power, acts_on_I. }
    assert (Hshape : forall p i, acts_on 1 p -> (0 <= i < n - 1)%Z ->
              acts_on (Z.to_nat n)
                (built_term p (Z.to_nat (n - i - 1)) (Z.to_nat i))).
    { intros p i Hp Hi.
      replace (Z.to_nat n)
        with (Nat.max 1 (Z.to_nat (n - i - 1)) + 1 + Z.to_nat i)%nat by lia.
      now apply built_term_acts_on. }
    destruct (Z.Even_or_Odd (k - 1)) as [[i Hi]|[i Hi]].
    + destruct (Hpairs i) as [E1 _]; [lia|].
      replace k with (2 * i + 1)%Z by lia.
      eexists. split; [exact E1|].
      apply Hshape; [apply acts_on_zero_op | lia].
    + destruct (Hpairs i) as [_ E2]; [lia|].
      replace k with (2 * i + 2)%Z by lia.
      eexists. split; [exact E2|].
      apply Hshape; [apply acts_on_one_op | lia].
  - intros k Hk.
    destruct (Hpairs (n - 1)%Z) as [E1 E2]; [lia|].
    replace (Z.to_nat (n - (n - 1) - 1)) with 0%nat in E1, E2 by lia.
    replace (Z.to_nat n + 1)%nat with (Z.to_nat (n - 1) + 2)%nat by lia.
    destruct (Z.eq_dec k (2 * n - 1)) as [->|Hk1].
    + replace (2 * n - 1)%Z with (2 * (n - 1) + 1)%Z by lia.
      eexists. split; [exact E1|]. apply built_term_last, acts_on_zero_op.
    + replace k with (2 * (n - 1) + 2)%Z by lia.
      eexists. split; [exact E2|]. apply built_term_last, acts_on_one_op.
Qed.

(** Diagonals of zeros and ones are closed under Kronecker products. *)

Lemma is_bit_mult (a b : C) : is_bit a -> is_bit b -> is_bit (a * b)%C.
Proof.
  intros [->| ->] [->| ->]; [left|left|left|right]; c_eq.
Qed.

Lemma is_bit_dkron (d1 d2 : list C) :
  Forall is_bit d1 -> Forall is_bit d2 -> Forall is_bit (dkron d1 d2).
Proof.
  intros H1 H2. rewrite Forall_forall in H1, H2.
  apply Forall_forall. intros c Hc. unfold dkron in Hc.
  apply in_flat_map in Hc. destruct Hc as [a [Ha Hc]].
  apply in_map_iff in Hc. destruct Hc as [b [<- Hb]].
  apply is_bit_mult; auto.
Qed.

Lemma is_bit_dpow (d : list C) (k : nat) :
  Forall is_bit d -> Forall is_bit (dpow d k).
Proof.
  intros Hd. induction k as [|k IH].
  - constructor; [now right | constructor].
  - change (Forall is_bit (dkron (dpow d k) d)). now apply is_bit_dkron.
Qed.

Lemma basis_projector_tensor (a b : Operator) :
  basis_projector a -> basis_projector b -> basis_projector (tensor a b).
Proof.
  intros [da [-> Ha]] [db [-> Hb]]. exists (dkron da db). split.
  - apply kron_diag.
  - now apply is_bit_dkron.
Qed.

Lemma basis_projector_tensor_power (a : Operator) (k : nat) :
  basis_projector a -> basis_projector (tensor_power a k).
Proof.
  intros [d [-> Hd]]. exists (dpow d k). split.
  - apply tensor_power_diag.
  - now apply is_bit_dpow.
Qed.

Lemma basis_projector_I : basis_projector (from_label I_label).
Proof.
  exists [C1; C1]. split; [reflexivity|].
  repeat constructor; now right.
Qed.

Lemma basis_projector_zero_op : basis_projector zero_op.
Proof.
  exists [C1; C0]. split; [apply zero_op_projector|].
  constructor; [now right|]. constructor; [now left | constructor].
Qed.

Lemma basis_projector_one_op : basis_projector one_op.
Proof.
  exists [C0; C1]. split; [apply one_op_projector|].
  constructor; [now left|]. constructor; [now right | constructor].
Qed.

Lemma basis_projector_built_term (p : Operator) (j i : nat) :
  basis_projector p -> basis_projector (built_term p j i).
Proof.
  intros Hp. unfold built_term.
  repeat apply basis_projector_tensor; try assumption;
    apply basis_projector_tensor_power;
    (apply basis_projector_I || apply basis_projector_one_op).
Qed.

Lemma observable_nonpositive (n : Z) :
  (n <= 0)%Z -> observable n = Ok [from_label I_label].
Proof.
  intros Hn. unfold observable. rewrite op_add_I_Z. cbn [bind].
  rewrite op_sub_I_Z. cbn [bind app].
  rewrite (@range_nonpos n) by lia. cbn [for_each].
  unfold tensor_repeat. rewrite (@range_nonpos (n - 1)) by lia.
  reflexivity.
Qed.

(** X9: for every n, each operator that observable(n) returns is diagonal
    with only zeros and ones on its diagonal. *)
Theorem observable_entries_are_basis_projectors (n : Z) :
  exists ops, observable n = Ok ops /\ Forall basis_projector ops.
Proof.
  destruct (Z.le_gt_cases n 0) as [Hn|Hn].
  - exists [from_label I_label]. split; [now apply observable_nonpositive|].
    constructor; [apply basis_projector_I | constructor].
  - eexists. split; [apply observable_built; lia|].
    constructor.
    + apply basis_projector_tensor_power, basis_projector_I.
    + apply Forall_forall. intros op Hop. apply in_flat_map in Hop.
      destruct Hop as [i [_ [<-|[<-|[]]]]];
        apply basis_projector_built_term;
        (apply basis_projector_zero_op || apply basis_projector_one_op).
Qed.

(** ** The estimation, term by term *)

(** X11: for n >= 1 and a real vector x of length 2^n, circuit 0 with
    observable 0 measures the sum of the squares of x, and for each
    i < n - 1 the circuits and observables of the indices 2i+1 and 2i+2
    measure two values whose difference is the sum of 2 * x[k] * x[k+1] over
    the indices k that end in a zero followed by exactly i ones. *)
Theorem projector_pairs_measure_neighbour_products (n : Z) (xr : list R) :
  (1 <= n)%Z -> length xr = (2 ^ Z.to_nat n)%nat ->
  exists ops qcs,
    observable n = Ok ops
    /\ observable_circuit n = Ok qcs
    /\ expectation_at ops qcs (map RtoC xr) 0
       = Ok (RtoC (RSigma (2 ^ Z.to_nat n)
                     (fun k => nth k xr 0 * nth k xr 0)%R))
    /\ forall i, (0 <= i < n - 1)%Z ->
         exists a b,
           expectation_at ops qcs (map RtoC xr) (2 * i + 1) = Ok a
           /\ expectation_at ops qcs (map RtoC xr) (2 * i + 2) = Ok b
           /\ (a - b)%C
              = RtoC (RSigma (2 ^ (Z.to_nat n - 1 - Z.to_nat i))
                  (fun u =>
                     2 * nth (2 * u * 2 ^ Z.to_nat i
                              + (2 ^ Z.to_nat i - 1)) xr 0
                     * nth (2 * u * 2 ^ Z.to_nat i
                            + (2 ^ Z.to_nat i - 1) + 1) xr 0)%R).
Proof.
  intros Hn Hx.
  assert (Hx' : length (map RtoC xr) = (2 ^ Z.to_nat n)%nat)
    by now rewrite length_map.
  destruct (@observable_entries n Hn) as [ops [Eops [_ [Ho0 Ho]]]].
  destruct (@observable_circuit_entries n Hn)
    as [qcs [Eqcs [_ [_ [Hq0 Hq]]]]].
  exists ops, qcs. split; [exact Eops|]. split; [exact Eqcs|]. split.
  - unfold expectation_at. rewrite Ho0, Hq0. cbn [bind].
    change (run (mkQC n []) (map RtoC xr)) with (map RtoC xr).
    rewrite expectation_identity by exact Hx'. f_equal.
    rewrite <- Sigma_RtoC. apply Sigma_ext. intros k _. apply weight_real.
  - intros i Hi.
    destruct (Ho i) as [Eo1 Eo2]; [lia|].
    destruct (Hq i) as [Eq1 [Eq2 _]]; [lia|].
    rewrite built_term_claimed in Eo1, Eo2 by lia.
    rewrite zero_op_projector in Eo1. rewrite one_op_projector in Eo2.
    change ProjectorZero with (diag [C1; C0]) in Eo1.
    change ProjectorOne with (diag [C0; C1]) in Eo2.
    assert (Hni : (Z.to_nat i < Z.to_nat n)%nat) by lia.
    exists (measured C1 C0 (Z.to_nat n) (Z.to_nat i) (map RtoC xr)),
           (measured C0 C1 (Z.to_nat n) (Z.to_nat i) (map RtoC xr)).
    split; [|split].
    + apply (@expectation_at_pair (Z.to_nat n) (map RtoC xr) Hx' C1 C0
               ops qcs (Z.to_nat i) (2 * i + 1)%Z Hni).
      * rewrite !Z2Nat.id by lia. exact Eo1.
      * rewrite !Z2Nat.id by lia. exact Eq1.
    + apply (@expectation_at_pair (Z.to_nat n) (map RtoC xr) Hx' C0 C1
               ops qcs (Z.to_nat i) (2 * i + 2)%Z Hni).
      * rewrite !Z2Nat.id by lia. exact Eo2.
      * rewrite !Z2Nat.id by lia. exact Eq2.
    + now apply measured_difference.
Qed.

(** ** Instances *)

Lemma post_processing_outcome_witness :
  (Nat.Odd (length [C1; C0; C0]) /\ 1%R <> 0%R
   /\ post_processing (mkMF 2 1) (PyList [C1; C0; C0]) 1 1
      = Ok (Re (combination (mkMF 2 1) [C1; C0; C0] 1 1)))
  /\ post_processing (mkMF 2 1) (PyList [C1; C0]) 1 0 = Raise IndexError
  /\ post_processing (mkMF 2 1) (PyList [C1; C0; C0; C0]) 1 1
     = Raise IndexError.
Proof.
  assert (Hodd : Nat.Odd (length [C1; C0; C0])) by (exists 1%nat; reflexivity).
  assert (Heven : Nat.Even (length [C1; C0; C0; C0]))
    by (exists 2%nat; reflexivity).
  assert (H1 : 1%R <> 0%R) by lra.
  split; [|split].
  - split; [exact Hodd|]. split; [exact H1|].
    exact (proj1 (post_processing_outcome (mkMF 2 1) [C1; C0; C0] 1 1)
             Hodd H1).
  - apply (proj1 (proj2 (post_processing_outcome (mkMF 2 1) [C1; C0] 1 0))).
    right. left. reflexivity.
  - apply (proj2 (proj2 (proj2 (post_processing_outcome (mkMF 2 1)
                                  [C1; C0; C0; C0] 1 1)) H1)).
    exact Heven.
Defined.

Lemma post_processing_scaling_witness :
  2%R <> 0%R
  /\ post_processing (mkMF 2 1) (PyList [C1; C0; C0]) 1 2
     = post_processing (mkMF 2 1) (PyList (prescaled [C1; C0; C0] 2)) 1 1.
Proof.
  assert (H2 : 2%R <> 0%R) by lra.
  split; [exact H2|].
  exact (proj1 (post_processing_scaling (mkMF 2 1) [C1; C0; C0] 1 2 H2)).
Defined.

Lemma post_processing_additive_witness :
  length [C1; C0; C0] = length [Ci; C1; C1]
  /\ Nat.Odd (length [C1; C0; C0]) /\ 1%R <> 0%R
  /\ exists va vb,
       post_processing (mkMF 2 1) (PyList [C1; C0; C0]) 1 1 = Ok va
       /\ post_processing (mkMF 2 1) (PyList [Ci; C1; C1]) 1 1 = Ok vb
       /\ post_processing (mkMF 2 1)
            (PyList (map2 Cplus [C1; C0; C0] [Ci; C1; C1])) 1 1
          = Ok (va + vb)%R.
Proof.
  assert (Hodd : Nat.Odd (length [C1; C0; C0])) by (exists 1%nat; reflexivity).
  assert (H1 : 1%R <> 0%R) by lra.
  split; [reflexivity|]. split; [exact Hodd|]. split; [exact H1|].
  exact (post_processing_additive (mkMF 2 1) [C1; C0; C0] [Ci; C1; C1] 1 1
           eq_refl Hodd H1).
Defined.

Lemma evaluate_classically_closed_form_witness :
  (1 <= length [1; 1]%R)%nat
  /\ evaluate_classically (mkMF 2 1) (SolArray (map RtoC [1; 1]%R))
     = Ok (RtoC (2 * RSigma 2 (fun k => nth k [1; 1] 0 * nth k [1; 1] 0)
                 + 2 * 1 * RSigma 1
                     (fun k => nth k [1; 1] 0 * nth (S k) [1; 1] 0))%R).
Proof.
  split; [simpl; lia|].
  apply (evaluate_classically_closed_form (mkMF 2 1) [1; 1]%R). simpl; lia.
Defined.

Lemma evaluate_classically_homogeneous_witness :
  (1 <= length [C1; C1])%nat
  /\ exists v,
       evaluate_classically (mkMF 2 1) (SolArray [C1; C1]) = Ok v
       /\ evaluate_classically (mkMF 2 1) (SolArray (map (Cmult Ci) [C1; C1]))
          = Ok (Ci * Ci * v)%C.
Proof.
  split; [simpl; lia|].
  apply (evaluate_classically_homogeneous (mkMF 2 1) Ci [C1; C1]).
  simpl; lia.
Defined.


Lemma evaluate_classically_bound_witness :
  (1 <= length [1; 1]%R)%nat
  /\ exists v,
       evaluate_classically (mkMF 2 1) (SolArray (map RtoC [1; 1]%R))
       = Ok (RtoC v).
Proof.
  split; [simpl; lia|].
  destruct (evaluate_classically_bound (mkMF 2 1) [1; 1]%R) as [v [E _]];
    [simpl; lia|].
  exists v. exact E.
Defined.

Lemma observable_circuit_well_formed_witness :
  (0 <= 2)%Z
  /\ exists qcs,
       observable_circuit 2 = Ok qcs
       /\ Forall (fun qc => qc_num_qubits qc = 2%Z
                            /\ Forall (gate_ok 2) (qc_data qc)) qcs.
Proof.
  split; [lia|].
  destruct (observable_circuit_well_formed 2) as [qcs [E [_ Hwf]]]; [lia|].
  exists qcs. split; [exact E | exact Hwf].
Defined.

Lemma observable_structure_witness :
  (1 <= 2)%Z
  /\ exists ops,
       observable 2 = Ok ops
       /\ (exists op, getitem ops 2 = Ok op /\ acts_on 2 op)
       /\ (exists op, getitem ops 3 = Ok op /\ acts_on 3 op).
Proof.
  split; [lia|].
  destruct (observable_structure 2) as [ops [E [_ [Hn Hn1]]]]; [lia|].
  exists ops. split; [exact E|]. split.
  - apply (Hn 2%Z). lia.
  - apply (Hn1 3%Z). lia.
Defined.

Lemma projector_pairs_measure_neighbour_products_witness :
  (1 <= 2)%Z /\ length [1; 2; 3; 4]%R = (2 ^ Z.to_nat 2)%nat
  /\ exists ops qcs,
       observable 2 = Ok ops
       /\ observable_circuit 2 = Ok qcs
       /\ exists a b,
            expectation_at ops qcs (map RtoC [1; 2; 3; 4]%R) 1 = Ok a
            /\ expectation_at ops qcs (map RtoC [1; 2; 3; 4]%R) 2 = Ok b.
Proof.
  split; [lia|]. split; [reflexivity|].
  destruct (projector_pairs_measure_neighbour_products 2 [1; 2; 3; 4]%R)
    as [ops [qcs [E1 [E2 [_ Hi]]]]]; [lia | reflexivity |].
  exists ops, qcs. split; [exact E1|]. split; [exact E2|].
  destruct (Hi 0%Z) as [a [b [Ea [Eb _]]]]; [lia|].
  exists a, b. split; [exact Ea | exact Eb].
Defined.

Lemma round_trip_with_claimed_observables_witness :
  (1 <= 1)%Z /\ length [3; 4]%R = (2 ^ Z.to_nat 1)%nat
  /\ exists v : R,
       estimate_with (mkMF 2 1) (claimed_observables 1)
         (map RtoC [3; 4]%R) 1 = Ok v
       /\ evaluate_classically (mkMF 2 1) (SolArray (map RtoC [3; 4]%R))
          = Ok (RtoC v).
Proof.
  split; [lia|]. split; [reflexivity|].
  apply (round_trip_with_claimed_observables (mkMF 2 1) 1 [3; 4]%R);
    [lia | reflexivity].
Defined.
